(** * CSS selector builders of [src/05-objects-tasks.js]

    The source holds two builder classes behind the same facade object
    [cssSelectorBuilder]:

    - [Selector] keeps one slot per kind of selector part and a numeric
      [order];
    - [CssSelectorBuilder] keeps a single array [selectors] of rendered
      fragments and classifies them again by their first characters.

    Both are embedded below as state-passing functions.  A method of a
    JavaScript object either returns or throws, and whatever it assigned
    before throwing stays assigned; a method is therefore a function from
    the object's state to the new state and a completion.  Builders are
    objects with identity, so the facade and [combine] are modelled over
    a store of objects indexed by locations. *)

From Stdlib Require Import Ascii.
From stdpp Require Import base option list gmap strings.

(** ** JavaScript primitives used by the builders *)

(** Truthiness of a string: every string but the empty one. *)
Definition truthy (s : string) : bool :=
  match s with
  | EmptyString => false
  | String _ _ => true
  end.

(** [s.startsWith(p)]. *)
Definition startsWith (s p : string) : bool := String.prefix p s.

(** [arr.join('')]. *)
Definition join (arr : list string) : string := String.concat "" arr.

(** A thrown [Error] is identified by its message. *)
Record Error := mkError { message : string }.

Inductive completion (A : Type) : Type :=
| Normal (a : A)
| Throw (e : Error).
Arguments Normal {A} a.
Arguments Throw {A} e.

(** A method body over an object of state [S]. *)
Definition method (S A : Type) : Type := S -> S * completion A.

Definition method_ret {S A} (a : A) : method S A := fun s => (s, Normal a).

Definition method_throw {S A} (e : Error) : method S A := fun s => (s, Throw e).

Definition method_bind {S A B} (k : A -> method S B) (m : method S A) : method S B :=
  fun s =>
    match m s with
    | (s1, Normal a) => k a s1
    | (s1, Throw e) => (s1, Throw e)
    end.

Definition mget {S} : method S S := fun s => (s, Normal s).

Definition mmodify {S} (f : S -> S) : method S unit := fun s => (f s, Normal tt).

#[global] Instance method_mret {S} : MRet (method S) := @method_ret S.
#[global] Instance method_mbind {S} : MBind (method S) := @method_bind S.

(** ** Objects with identity

    A builder is an object; [new] allocates one and every later use goes
    through its reference.  [None] stands for a reference to a location
    that holds no object, which no JavaScript program can produce. *)

Definition loc : Type := nat.

Definition program (Obj A : Type) : Type :=
  gmap loc Obj -> option (gmap loc Obj * completion A).

Definition program_ret {Obj A} (a : A) : program Obj A :=
  fun h => Some (h, Normal a).

Definition program_bind {Obj A B} (k : A -> program Obj B) (p : program Obj A)
  : program Obj B :=
  fun h =>
    match p h with
    | Some (h1, Normal a) => k a h1
    | Some (h1, Throw e) => Some (h1, Throw e)
    | None => None
    end.

#[global] Instance program_mret {Obj} : MRet (program Obj) := @program_ret Obj.
#[global] Instance program_mbind {Obj} : MBind (program Obj) := @program_bind Obj.

(** [new C()], with [o] the state the constructor leaves. *)
Definition construct {Obj} (o : Obj) : program Obj loc :=
  fun h => let l := fresh (dom h) in Some (<[l:=o]> h, Normal l).

(** [l.m(...)]: run the method body on the object at [l]. *)
Definition invoke {Obj A} (l : loc) (m : method Obj A) : program Obj A :=
  fun h =>
    match h !! l with
    | Some o => let '(o', c) := m o in Some (<[l:=o']> h, c)
    | None => None
    end.

(** A method that ends in [return this]. *)
Definition chain {Obj} (this : loc) (m : method Obj unit) : program Obj loc :=
  invoke this m ;; mret this.

(** The six kinds of simple selector parts, with the argument of the call. *)
Inductive call : Type :=
| Element (value : string)
| Id (value : string)
| Class (value : string)
| Attr (value : string)
| PseudoClass (value : string)
| PseudoElement (value : string).

(** The number each method passes to [validateOrder]. *)
Definition rank (c : call) : nat :=
  match c with
  | Element _ => 1
  | Id _ => 2
  | Class _ => 3
  | Attr _ => 4
  | PseudoClass _ => 5
  | PseudoElement _ => 6
  end.

(** The text each method stores for its argument. *)
Definition render (c : call) : string :=
  match c with
  | Element v => v
  | Id v => "#" +:+ v
  | Class v => "." +:+ v
  | Attr v => "[" +:+ v +:+ "]"
  | PseudoClass v => ":" +:+ v
  | PseudoElement v => "::" +:+ v
  end.

(** ** class Selector *)

Module Selector.

Record t : Type := mk {
  elementValue : string;
  idValue : string;
  classValues : list string;
  attrValue : string;
  pseudoClassValues : list string;
  pseudoElementValue : string;
  order : nat
}.

(** [constructor()] *)
Definition new : t :=
  {| elementValue := ""; idValue := ""; classValues := [];
     attrValue := ""; pseudoClassValues := []; pseudoElementValue := "";
     order := 0 |}.

Definition set_elementValue (v : string) (s : t) : t :=
  mk v (idValue s) (classValues s) (attrValue s) (pseudoClassValues s)
     (pseudoElementValue s) (order s).
Definition set_idValue (v : string) (s : t) : t :=
  mk (elementValue s) v (classValues s) (attrValue s) (pseudoClassValues s)
     (pseudoElementValue s) (order s).
Definition push_classValues (v : string) (s : t) : t :=
  mk (elementValue s) (idValue s) (classValues s ++ [v]) (attrValue s)
     (pseudoClassValues s) (pseudoElementValue s) (order s).
Definition set_attrValue (v : string) (s : t) : t :=
  mk (elementValue s) (idValue s) (classValues s) v (pseudoClassValues s)
     (pseudoElementValue s) (order s).
Definition push_pseudoClassValues (v : string) (s : t) : t :=
  mk (elementValue s) (idValue s) (classValues s) (attrValue s)
     (pseudoClassValues s ++ [v]) (pseudoElementValue s) (order s).
Definition set_pseudoElementValue (v : string) (s : t) : t :=
  mk (elementValue s) (idValue s) (classValues s) (attrValue s)
     (pseudoClassValues s) v (order s).
Definition set_order (n : nat) (s : t) : t :=
  mk (elementValue s) (idValue s) (classValues s) (attrValue s)
     (pseudoClassValues s) (pseudoElementValue s) n.

Definition duplicate_then : Error :=
  mkError "Element, id and pseudo-element should not occur more then one time inside the selector".
Definition duplicate_once : Error :=
  mkError "Element, id, and pseudo-element should not occur more than once inside the selector".
Definition out_of_order : Error :=
  mkError "Selector parts should be arranged in the following order: element, id, class, attribute, pseudo-class, pseudo-element".

Definition validateOrder (o : nat) : method t unit :=
  this ← mget;
  if order this <=? o then mmodify (set_order o)
  else method_throw out_of_order.

Definition element (value : string) : method t unit :=
  this ← mget;
  if truthy (elementValue this) then method_throw duplicate_then
  else mmodify (set_elementValue value) ;; validateOrder 1.

Definition id (value : string) : method t unit :=
  this ← mget;
  if truthy (idValue this) then method_throw duplicate_then
  else mmodify (set_idValue ("#" +:+ value)) ;; validateOrder 2.

Definition class (value : string) : method t unit :=
  mmodify (push_classValues ("." +:+ value)) ;; validateOrder 3.

Definition attr (value : string) : method t unit :=
  mmodify (set_attrValue ("[" +:+ value +:+ "]")) ;; validateOrder 4.

Definition pseudoClass (value : string) : method t unit :=
  mmodify (push_pseudoClassValues (":" +:+ value)) ;; validateOrder 5.

Definition pseudoElement (value : string) : method t unit :=
  this ← mget;
  if truthy (pseudoElementValue this) then method_throw duplicate_once
  else mmodify (set_pseudoElementValue ("::" +:+ value)) ;; validateOrder 6.

(** [stringify()] only reads the object. *)
Definition stringify : method t string :=
  this ← mget;
  let selectorString := elementValue this in
  let selectorString := selectorString +:+ idValue this in
  let selectorString := selectorString +:+ join (classValues this) in
  let selectorString := selectorString +:+ attrValue this in
  let selectorString := selectorString +:+ join (pseudoClassValues this) in
  let selectorString := selectorString +:+ pseudoElementValue this in
  mret selectorString.

(** The assignment made by [combine] once both operands are rendered. *)
Definition store_combined (s1 combinator s2 : string) : method t unit :=
  mmodify (set_elementValue (s1 +:+ " " +:+ combinator +:+ " " +:+ s2)).

(** Dispatch of a call to the method of that name. *)
Definition append (c : call) : method t unit :=
  match c with
  | Element v => element v
  | Id v => id v
  | Class v => class v
  | Attr v => attr v
  | PseudoClass v => pseudoClass v
  | PseudoElement v => pseudoElement v
  end.

(** [combine(selector1, combinator, selector2)] on the builder [this]. *)
Definition combine (this selector1 : loc) (combinator : string) (selector2 : loc)
  : program t loc :=
  s1 ← invoke selector1 stringify;
  s2 ← invoke selector2 stringify;
  chain this (store_combined s1 combinator s2).

(** The facade object of this version of the file. *)
Module cssSelectorBuilder.
Definition element (value : string) : program t loc :=
  this ← construct new; chain this (Selector.element value).
Definition id (value : string) : program t loc :=
  this ← construct new; chain this (Selector.id value).
Definition class (value : string) : program t loc :=
  this ← construct new; chain this (Selector.class value).
Definition attr (value : string) : program t loc :=
  this ← construct new; chain this (Selector.attr value).
Definition pseudoClass (value : string) : program t loc :=
  this ← construct new; chain this (Selector.pseudoClass value).
Definition pseudoElement (value : string) : program t loc :=
  this ← construct new; chain this (Selector.pseudoElement value).
Definition combine (selector1 : loc) (combinator : string) (selector2 : loc)
  : program t loc :=
  selector ← construct new;
  Selector.combine selector selector1 combinator selector2.

(** The entry point named like the call. *)
Definition start (c : call) : program t loc :=
  match c with
  | Element v => element v
  | Id v => id v
  | Class v => class v
  | Attr v => attr v
  | PseudoClass v => pseudoClass v
  | PseudoElement v => pseudoElement v
  end.
End cssSelectorBuilder.

End Selector.

(** ** class CssSelectorBuilder *)

Module CssSelectorBuilder.

(** The constructor leaves [elementCount], [idCount] and
    [pseudoElementCount] undefined; the methods then add one to them.
    [undefined + 1] and [NaN + 1] are both [NaN]. *)
Inductive counter : Type := Undefined | NaN.

Definition plus_one (c : counter) : counter := NaN.

Record t : Type := mk {
  selectors : list string;
  elementCount : counter;
  idCount : counter;
  pseudoElementCount : counter
}.

(** [constructor()] *)
Definition new : t :=
  {| selectors := []; elementCount := Undefined; idCount := Undefined;
     pseudoElementCount := Undefined |}.

Definition set_selectors (l : list string) (s : t) : t :=
  mk l (elementCount s) (idCount s) (pseudoElementCount s).
Definition push (v : string) (s : t) : t :=
  mk (selectors s ++ [v]) (elementCount s) (idCount s) (pseudoElementCount s).
Definition incr_elementCount (s : t) : t :=
  mk (selectors s) (plus_one (elementCount s)) (idCount s) (pseudoElementCount s).
Definition incr_idCount (s : t) : t :=
  mk (selectors s) (elementCount s) (plus_one (idCount s)) (pseudoElementCount s).
Definition incr_pseudoElementCount (s : t) : t :=
  mk (selectors s) (elementCount s) (idCount s) (plus_one (pseudoElementCount s)).

Definition duplicate : Error :=
  mkError "Element, id and pseudo-element should not occur more than one time inside the selector".
Definition out_of_order : Error :=
  mkError "Selector parts should be arranged in the following order: element, id, class, attribute, pseudo-class, pseudo-element".

(** The three local counters of [validateOrder]. *)
Record counts : Type := mkCounts {
  nElement : nat;
  nId : nat;
  nPseudoElement : nat
}.

(** Body of the [forEach] callback. *)
Definition classify (acc : counts) (selector : string) : counts :=
  if startsWith selector "#" then
    mkCounts (nElement acc) (nId acc + 1) (nPseudoElement acc)
  else if startsWith selector "::" then
    mkCounts (nElement acc) (nId acc) (nPseudoElement acc + 1)
  else
    mkCounts (nElement acc + 1) (nId acc) (nPseudoElement acc).

Definition count_selectors (l : list string) : counts :=
  fold_left classify l (mkCounts 0 0 0).

(** [lastSelector && lastSelector.startsWith(p)], with [lastSelector]
    undefined on an empty array. *)
Definition last_startsWith (lastSelector : option string) (p : string) : bool :=
  match lastSelector with
  | Some s => truthy s && startsWith s p
  | None => false
  end.

Definition validateOrder (prio : nat) : method t unit :=
  this ← mget;
  let lastSelector := last (selectors this) in
  let n := count_selectors (selectors this) in
  if (1 <? nElement n) || (1 <? nId n) || (1 <? nPseudoElement n)
  then method_throw duplicate
  else if (last_startsWith lastSelector "#" && negb (prio =? 2))
          || (last_startsWith lastSelector "::" && negb (prio =? 6))
  then method_throw out_of_order
  else mret tt.

(** The two conditions of [validateOrder], named for the statements
    below: the one of its first [throw] ... *)
Definition too_many (l : list string) : bool :=
  let n := count_selectors l in
  (1 <? nElement n) || (1 <? nId n) || (1 <? nPseudoElement n).

(** ... and the one of its second. *)
Definition misplaced (l : list string) (prio : nat) : bool :=
  (last_startsWith (last l) "#" && negb (prio =? 2))
  || (last_startsWith (last l) "::" && negb (prio =? 6)).

Definition element (value : string) : method t unit :=
  validateOrder 1 ;; mmodify incr_elementCount ;; mmodify (push value).

Definition id (value : string) : method t unit :=
  validateOrder 2 ;; mmodify incr_idCount ;; mmodify (push ("#" +:+ value)).

Definition class (value : string) : method t unit :=
  validateOrder 3 ;; mmodify (push ("." +:+ value)).

Definition attr (value : string) : method t unit :=
  validateOrder 4 ;; mmodify (push ("[" +:+ value +:+ "]")).

Definition pseudoClass (value : string) : method t unit :=
  validateOrder 5 ;; mmodify (push (":" +:+ value)).

Definition pseudoElement (value : string) : method t unit :=
  validateOrder 6 ;; mmodify incr_pseudoElementCount ;;
  mmodify (push ("::" +:+ value)).

(** [stringify()] joins the array and replaces it by a new empty one. *)
Definition stringify : method t string :=
  this ← mget;
  let res := join (selectors this) in
  mmodify (set_selectors []) ;; mret res.

Definition append (c : call) : method t unit :=
  match c with
  | Element v => element v
  | Id v => id v
  | Class v => class v
  | Attr v => attr v
  | PseudoClass v => pseudoClass v
  | PseudoElement v => pseudoElement v
  end.

(** The fragment pushed by [combine] once both operands are rendered. *)
Definition store_combined (s1 combinator s2 : string) : method t unit :=
  mmodify (push (s1 +:+ " " +:+ combinator +:+ " " +:+ s2)).

(** [combine(selector1, combinator, selector2)] on the builder [this].
    In [this.selectors.push(arg)] the array [this.selectors] is fetched
    before [arg] is evaluated, and [stringify] installs a new array in
    the builder it is called on.  When [this] is one of the operands the
    push therefore lands in the array that was dropped, and the builder
    keeps the empty one. *)
Definition combine (this selector1 : loc) (combinator : string) (selector2 : loc)
  : program t loc :=
  s1 ← invoke selector1 stringify;
  s2 ← invoke selector2 stringify;
  if decide (this = selector1 ∨ this = selector2)
  then chain this (mret tt)
  else chain this (store_combined s1 combinator s2).

(** The facade object of this version of the file. *)
Module cssSelectorBuilder.
Definition element (value : string) : program t loc :=
  this ← construct new; chain this (CssSelectorBuilder.element value).
Definition id (value : string) : program t loc :=
  this ← construct new; chain this (CssSelectorBuilder.id value).
Definition class (value : string) : program t loc :=
  this ← construct new; chain this (CssSelectorBuilder.class value).
Definition attr (value : string) : program t loc :=
  this ← construct new; chain this (CssSelectorBuilder.attr value).
Definition pseudoClass (value : string) : program t loc :=
  this ← construct new; chain this (CssSelectorBuilder.pseudoClass value).
Definition pseudoElement (value : string) : program t loc :=
  this ← construct new; chain this (CssSelectorBuilder.pseudoElement value).
Definition combine (selector1 : loc) (combinator : string) (selector2 : loc)
  : program t loc :=
  this ← construct new;
  CssSelectorBuilder.combine this selector1 combinator selector2.

(** The entry point named like the call. *)
Definition start (c : call) : program t loc :=
  match c with
  | Element v => element v
  | Id v => id v
  | Class v => class v
  | Attr v => attr v
  | PseudoClass v => pseudoClass v
  | PseudoElement v => pseudoElement v
  end.
End cssSelectorBuilder.

End CssSelectorBuilder.


(** ** Selector expressions

    Both versions of the file export the same interface: the facade
    [cssSelectorBuilder] and builders answering to the six part methods,
    [combine] and [stringify]. *)

Class Builder (Obj : Type) : Type := {
  facade_start : call -> program Obj loc;
  facade_combine : loc -> string -> loc -> program Obj loc;
  method_append : call -> method Obj unit;
  method_combine : loc -> loc -> string -> loc -> program Obj loc;
  method_stringify : method Obj string
}.

#[global] Instance Selector_Builder : Builder Selector.t := {
  facade_start := Selector.cssSelectorBuilder.start;
  facade_combine := Selector.cssSelectorBuilder.combine;
  method_append := Selector.append;
  method_combine := Selector.combine;
  method_stringify := Selector.stringify
}.

#[global] Instance CssSelectorBuilder_Builder : Builder CssSelectorBuilder.t := {
  facade_start := CssSelectorBuilder.cssSelectorBuilder.start;
  facade_combine := CssSelectorBuilder.cssSelectorBuilder.combine;
  method_append := CssSelectorBuilder.append;
  method_combine := CssSelectorBuilder.combine;
  method_stringify := CssSelectorBuilder.stringify
}.

(** The expressions a client writes against that interface. *)
Inductive expr : Type :=
| Start (c : call)
    (* [cssSelectorBuilder.c(v)] *)
| Then (e : expr) (c : call)
    (* [e.c(v)] *)
| Combine (e1 : expr) (combinator : string) (e2 : expr)
    (* [cssSelectorBuilder.combine(e1, combinator, e2)] *)
| ThenCombine (e e1 : expr) (combinator : string) (e2 : expr).
    (* [e.combine(e1, combinator, e2)] *)

(** Evaluation: receiver first, then the arguments from left to right,
    then the call. *)
Fixpoint eval {Obj} `{Builder Obj} (e : expr) : program Obj loc :=
  match e with
  | Start c => facade_start c
  | Then e0 c => this ← eval e0; chain this (method_append c)
  | Combine e1 k e2 =>
      l ← eval e1; r ← eval e2; facade_combine l k r
  | ThenCombine e0 e1 k e2 =>
      this ← eval e0; l ← eval e1; r ← eval e2; method_combine this l k r
  end.

(** [e.stringify()] *)
Definition eval_stringify {Obj} `{Builder Obj} (e : expr) : program Obj string :=
  this ← eval e; invoke this method_stringify.

(** The value a program run from the empty store completes with. *)
Definition outcome {Obj A} (p : program Obj A) : option (completion A) :=
  snd <$> p ∅.

(** What [l.stringify()] would return in the store [h]. *)
Definition rendering {Obj} `{Builder Obj} (l : loc) (h : gmap loc Obj)
  : option (completion string) :=
  snd <$> invoke l method_stringify h.

(** The two combinations of the documentation. *)
Definition div_main_plus_span : expr :=
  Combine (Then (Start (Element "div")) (Id "main")) "+"
          (Start (Element "span")).

Definition table_tr_td : expr :=
  Combine (Combine (Start (Element "table")) "~" (Start (Element "tr"))) " "
          (Start (Element "td")).

(** What the frame argument below needs to know of a builder class:
    a facade entry point adds one object at an unused location and
    returns it; [combine] returns its receiver, adds no object and
    changes none but the receiver and its two operands. *)
Class BuilderLaws (Obj : Type) `{Builder Obj} : Prop := {
  facade_start_adds_one :
    forall (c : call) (h : gmap loc Obj),
      exists o, facade_start c h
                = Some (<[fresh (dom h) := o]> h, Normal (fresh (dom h)));
  facade_combine_adds_one :
    forall (l : loc) (k : string) (r : loc) (h : gmap loc Obj),
      is_Some (h !! l) -> is_Some (h !! r) ->
      exists h', facade_combine l k r h = Some (h', Normal (fresh (dom h)))
                 /\ is_Some (h' !! fresh (dom h))
                 /\ forall x, x <> fresh (dom h) -> x <> l -> x <> r ->
                              h' !! x = h !! x;
  method_combine_changes_three :
    forall (this l : loc) (k : string) (r : loc) (h : gmap loc Obj),
      is_Some (h !! this) -> is_Some (h !! l) -> is_Some (h !! r) ->
      exists h', method_combine this l k r h = Some (h', Normal this)
                 /\ is_Some (h' !! this)
                 /\ forall x, x <> this -> x <> l -> x <> r ->
                              h' !! x = h !! x
}.

(** ** Sequences of calls *)

(** A chained expression [b.c1(..).c2(..)...]: it stops at the first call
    that throws. *)
Fixpoint chained {Obj} (append : call -> method Obj unit) (cs : list call)
  : method Obj unit :=
  match cs with
  | [] => mret tt
  | c :: cs' => append c ;; chained append cs'
  end.

(** The same calls made one statement at a time by a caller that catches
    whatever is thrown and goes on: the state after all of them. *)
Fixpoint performed {Obj} (append : call -> method Obj unit) (cs : list call)
  (s : Obj) : Obj :=
  match cs with
  | [] => s
  | c :: cs' => performed append cs' (fst (append c s))
  end.

(** The calls of a sequence that returned, in order. *)
Fixpoint returned {Obj} (append : call -> method Obj unit) (cs : list call)
  (s : Obj) : list call :=
  match cs with
  | [] => []
  | c :: cs' =>
      match append c s with
      | (s1, Normal _) => c :: returned append cs' s1
      | (s1, Throw _) => returned append cs' s1
      end
  end.

Definition is_element (c : call) : bool :=
  match c with Element _ => true | _ => false end.
Definition is_id (c : call) : bool :=
  match c with Id _ => true | _ => false end.
Definition is_class (c : call) : bool :=
  match c with Class _ => true | _ => false end.
Definition is_attr (c : call) : bool :=
  match c with Attr _ => true | _ => false end.
Definition is_pseudoClass (c : call) : bool :=
  match c with PseudoClass _ => true | _ => false end.
Definition is_pseudoElement (c : call) : bool :=
  match c with PseudoElement _ => true | _ => false end.

(** Kinds that may occur several times in one selector. *)
Definition repeatable (c : call) : bool :=
  is_class c || is_attr c || is_pseudoClass c.

Definition at_most_once (p : call -> bool) (cs : list call) : bool :=
  length (List.filter p cs) <=? 1.

Fixpoint ranks_ascend (cs : list call) : bool :=
  match cs with
  | [] => true
  | c :: cs' =>
      match cs' with
      | [] => true
      | d :: _ => (rank c <=? rank d) && ranks_ascend cs'
      end
  end.

(** The call sequences the ordering rule admits. *)
Definition well_ordered (cs : list call) : bool :=
  at_most_once is_element cs && at_most_once is_id cs
  && at_most_once is_pseudoElement cs && ranks_ascend cs.

(** The argument of the last [attr] call of a sequence. *)
Fixpoint last_attr (cs : list call) : option string :=
  match cs with
  | [] => None
  | c :: cs' =>
      match last_attr cs' with
      | Some v => Some v
      | None => match c with Attr v => Some v | _ => None end
      end
  end.

Fixpoint max_rank (cs : list call) : nat :=
  match cs with
  | [] => 0
  | c :: cs' => Nat.max (rank c) (max_rank cs')
  end.

(** In [Selector] the kinds kept in a one-string slot, which a second
    call overwrites: all but [class] and [pseudoClass]. *)
Definition single_slot (c : call) : bool :=
  negb (is_class c || is_pseudoClass c).

(** Sequences that keep each slot of [Selector] from being written twice:
    ranks ascend, strictly at the one-string slots. *)
Fixpoint ascends_from (prev : nat) (cs : list call) : bool :=
  match cs with
  | [] => true
  | c :: cs' =>
      (if single_slot c then prev <? rank c else prev <=? rank c)
      && ascends_from (rank c) cs'
  end.

(** [d] is a call of the kind of [c]. *)
Definition same_rank (c d : call) : bool := rank d =? rank c.

(** The slots of a [Selector] for the ranks above [r] are still empty. *)
Definition empty_above (r : nat) (s : Selector.t) : Prop :=
  (r < 1 -> Selector.elementValue s = "")
  /\ (r < 2 -> Selector.idValue s = "")
  /\ (r < 3 -> Selector.classValues s = [])
  /\ (r < 4 -> Selector.attrValue s = "")
  /\ (r < 5 -> Selector.pseudoClassValues s = [])
  /\ (r < 6 -> Selector.pseudoElementValue s = "").

(** The string [Selector.stringify] returns for a builder in state [s]. *)
Definition text (s : Selector.t) : string :=
  Selector.elementValue s +:+ Selector.idValue s
  +:+ join (Selector.classValues s) +:+ Selector.attrValue s
  +:+ join (Selector.pseudoClassValues s) +:+ Selector.pseudoElementValue s.

(** ** Expressions without a store

    The builders an expression creates are reachable from that
    expression only, so what its value holds can be computed from the
    states of the builders alone. *)

(** An [element] call with a name that is not the empty string. *)
Definition named_element (c : call) : bool :=
  match c with Element v => truthy v | _ => false end.

(** For a builder class: the state [new] leaves, and the state of the
    receiver [o] after [combine] with operands in states [a] and [b]. *)
Class Combination (Obj : Type) : Type := {
  initial : Obj;
  combined : Obj -> string -> Obj -> Obj -> Obj
}.

#[global] Instance Selector_Combination : Combination Selector.t := {
  initial := Selector.new;
  combined a k b o :=
    fst (Selector.store_combined (text a) k (text b) o)
}.

#[global] Instance CssSelectorBuilder_Combination
  : Combination CssSelectorBuilder.t := {
  initial := CssSelectorBuilder.new;
  combined a k b o :=
    fst (CssSelectorBuilder.store_combined
           (join (CssSelectorBuilder.selectors a)) k
           (join (CssSelectorBuilder.selectors b)) o)
}.

(** The state of the builder an expression evaluates to, or the error it
    throws. *)
Fixpoint denote {Obj} `{Builder Obj} `{Combination Obj} (e : expr)
  : Obj + Error :=
  match e with
  | Start c => inl (fst (method_append c initial))
  | Then e0 c =>
      match denote e0 with
      | inl o =>
          match method_append c o with
          | (o', Normal _) => inl o'
          | (_, Throw err) => inr err
          end
      | inr err => inr err
      end
  | Combine e1 k e2 =>
      match denote e1 with
      | inl a =>
          match denote e2 with
          | inl b => inl (combined a k b initial)
          | inr err => inr err
          end
      | inr err => inr err
      end
  | ThenCombine e0 e1 k e2 =>
      match denote e0 with
      | inl o =>
          match denote e1 with
          | inl a =>
              match denote e2 with
              | inl b => inl (combined a k b o)
              | inr err => inr err
              end
          | inr err => inr err
          end
      | inr err => inr err
      end
  end.

(** What relates a builder class to [initial] and [combined]: entry
    points and [combine], on builders that are distinct objects. *)
Class CombinationLaws (Obj : Type) `{Builder Obj} `{Combination Obj} : Prop := {
  start_initial :
    forall (c : call) (h : gmap loc Obj),
      facade_start c h
      = Some (<[fresh (dom h) := fst (method_append c initial)]> h,
              Normal (fresh (dom h)));
  facade_combine_combined :
    forall (l : loc) (k : string) (r : loc) (h : gmap loc Obj) (a b : Obj),
      l <> r -> h !! l = Some a -> h !! r = Some b ->
      exists h', facade_combine l k r h = Some (h', Normal (fresh (dom h)))
                 /\ h' !! fresh (dom h) = Some (combined a k b initial)
                 /\ forall x, x <> fresh (dom h) -> x <> l -> x <> r ->
                              h' !! x = h !! x;
  method_combine_combined :
    forall (this l : loc) (k : string) (r : loc) (h : gmap loc Obj)
           (o a b : Obj),
      this <> l -> this <> r -> l <> r ->
      h !! this = Some o -> h !! l = Some a -> h !! r = Some b ->
      exists h', method_combine this l k r h = Some (h', Normal this)
                 /\ h' !! this = Some (combined a k b o)
                 /\ forall x, x <> this -> x <> l -> x <> r ->
                              h' !! x = h !! x;
  stringify_returns :
    forall o : Obj, exists str, snd (method_stringify o) = Normal str;
  combined_stringify :
    forall (a b : Obj) (k s1 s2 : string),
      snd (method_stringify a) = Normal s1 ->
      snd (method_stringify b) = Normal s2 ->
      snd (method_stringify (combined a k b initial))
      = Normal (s1 +:+ " " +:+ k +:+ " " +:+ s2)
}.

(** The completion of [e.stringify()] read off [denote e]. *)
Definition denoted_stringify {Obj} `{Builder Obj} `{Combination Obj} (e : expr)
  : completion string :=
  match denote e with
  | inl o => snd (method_stringify o)
  | inr err => Throw err
  end.

(** * Properties *)

(** ** Strings *)

Lemma append_nil_l (s : string) : "" +:+ s = s.
Proof. reflexivity. Qed.

Lemma append_cons (a : ascii) (s t : string) :
  String a s +:+ t = String a (s +:+ t).
Proof. reflexivity. Qed.

Lemma append_nil_r (s : string) : s +:+ "" = s.
Proof.
  induction s as [|a s IH]; [reflexivity | now rewrite append_cons, IH].
Qed.

Lemma append_assoc (s1 s2 s3 : string) :
  (s1 +:+ s2) +:+ s3 = s1 +:+ (s2 +:+ s3).
Proof.
  induction s1 as [|a s1 IH]; [reflexivity | now rewrite !append_cons, IH].
Qed.

Lemma join_cons (x : string) (l : list string) : join (x :: l) = x +:+ join l.
Proof.
  unfold join. destruct l as [|y l]; cbn.
  - now rewrite append_nil_r.
  - reflexivity.
Qed.

Lemma join_app (l1 l2 : list string) : join (l1 ++ l2) = join l1 +:+ join l2.
Proof.
  induction l1 as [|x l1 IH].
  - reflexivity.
  - change ((x :: l1) ++ l2) with (x :: (l1 ++ l2)).
    now rewrite !join_cons, IH, append_assoc.
Qed.

Lemma join_snoc (l : list string) (x : string) : join (l ++ [x]) = join l +:+ x.
Proof. rewrite join_app. f_equal. Qed.

Lemma truthy_empty (s : string) : truthy s = false <-> s = "".
Proof. destruct s; cbn; split; intros H; congruence. Qed.

Lemma prefix_nil (s : string) : String.prefix "" s = true.
Proof. now destruct s. Qed.

Lemma prefix_cons (a b : ascii) (p s : string) :
  String.prefix (String a p) (String b s)
  = if Ascii.ascii_dec a b then String.prefix p s else false.
Proof. reflexivity. Qed.

(** The first characters of a combined string are those of its left
    operand: the separator after it is a space. *)
Lemma startsWith_hash_combined (s1 rest : string) :
  startsWith (s1 +:+ " " +:+ rest) "#" = startsWith s1 "#".
Proof.
  unfold startsWith. destruct s1 as [|a s1].
  - reflexivity.
  - rewrite append_cons, !prefix_cons.
    destruct (Ascii.ascii_dec "#" a); [|reflexivity].
    now rewrite !prefix_nil.
Qed.

Lemma startsWith_colons_combined (s1 rest : string) :
  startsWith (s1 +:+ " " +:+ rest) "::" = startsWith s1 "::".
Proof.
  unfold startsWith. destruct s1 as [|a s1].
  - reflexivity.
  - rewrite append_cons, !prefix_cons.
    destruct (Ascii.ascii_dec ":" a); [|reflexivity].
    destruct s1 as [|b s1].
    + reflexivity.
    + rewrite append_cons, !prefix_cons.
      destruct (Ascii.ascii_dec ":" b); [|reflexivity].
      now rewrite !prefix_nil.
Qed.

(** Unfold the bind, return and throw of method bodies. *)
Ltac method_unfold :=
  unfold mbind, method_mbind, method_bind, mret, method_mret, method_ret,
    mget, mmodify, method_throw.

(** ** [Selector]: what each method does to the object *)

Module SelectorFacts.
Import Selector.

Lemma validateOrder_eq (o : nat) (s : t) :
  validateOrder o s
  = if order s <=? o then (set_order o s, Normal tt)
    else (s, Throw out_of_order).
Proof.
  unfold validateOrder. method_unfold. now destruct (order s <=? o).
Qed.

Lemma element_eq (v : string) (s : t) :
  element v s
  = if truthy (elementValue s) then (s, Throw duplicate_then)
    else validateOrder 1 (set_elementValue v s).
Proof.
  unfold element. method_unfold. now destruct (truthy (elementValue s)).
Qed.

Lemma id_eq (v : string) (s : t) :
  id v s
  = if truthy (idValue s) then (s, Throw duplicate_then)
    else validateOrder 2 (set_idValue ("#" +:+ v) s).
Proof. unfold id. method_unfold. now destruct (truthy (idValue s)). Qed.

Lemma class_eq (v : string) (s : t) :
  class v s = validateOrder 3 (push_classValues ("." +:+ v) s).
Proof. reflexivity. Qed.

Lemma attr_eq (v : string) (s : t) :
  attr v s = validateOrder 4 (set_attrValue ("[" +:+ v +:+ "]") s).
Proof. reflexivity. Qed.

Lemma pseudoClass_eq (v : string) (s : t) :
  pseudoClass v s = validateOrder 5 (push_pseudoClassValues (":" +:+ v) s).
Proof. reflexivity. Qed.

Lemma pseudoElement_eq (v : string) (s : t) :
  pseudoElement v s
  = if truthy (pseudoElementValue s) then (s, Throw duplicate_once)
    else validateOrder 6 (set_pseudoElementValue ("::" +:+ v) s).
Proof.
  unfold pseudoElement. method_unfold.
  now destruct (truthy (pseudoElementValue s)).
Qed.

Lemma stringify_eq (s : t) :
  stringify s
  = (s, Normal (elementValue s +:+ idValue s +:+ join (classValues s)
                +:+ attrValue s +:+ join (pseudoClassValues s)
                +:+ pseudoElementValue s)).
Proof. unfold stringify. method_unfold. now rewrite !append_assoc. Qed.

Lemma store_combined_eq (s1 c s2 : string) (s : t) :
  store_combined s1 c s2 s
  = (set_elementValue (s1 +:+ " " +:+ c +:+ " " +:+ s2) s, Normal tt).
Proof. reflexivity. Qed.

(** [validateOrder] never touches a slot. *)
Lemma validateOrder_elementValue o s :
  elementValue (fst (validateOrder o s)) = elementValue s.
Proof. rewrite validateOrder_eq. now destruct (order s <=? o). Qed.
Lemma validateOrder_idValue o s :
  idValue (fst (validateOrder o s)) = idValue s.
Proof. rewrite validateOrder_eq. now destruct (order s <=? o). Qed.
Lemma validateOrder_classValues o s :
  classValues (fst (validateOrder o s)) = classValues s.
Proof. rewrite validateOrder_eq. now destruct (order s <=? o). Qed.
Lemma validateOrder_attrValue o s :
  attrValue (fst (validateOrder o s)) = attrValue s.
Proof. rewrite validateOrder_eq. now destruct (order s <=? o). Qed.
Lemma validateOrder_pseudoClassValues o s :
  pseudoClassValues (fst (validateOrder o s)) = pseudoClassValues s.
Proof. rewrite validateOrder_eq. now destruct (order s <=? o). Qed.
Lemma validateOrder_pseudoElementValue o s :
  pseudoElementValue (fst (validateOrder o s)) = pseudoElementValue s.
Proof. rewrite validateOrder_eq. now destruct (order s <=? o). Qed.

Create Rewrite HintDb slots.
#[local] Hint Rewrite validateOrder_elementValue validateOrder_idValue
  validateOrder_classValues validateOrder_attrValue
  validateOrder_pseudoClassValues validateOrder_pseudoElementValue
  element_eq id_eq class_eq attr_eq pseudoClass_eq pseudoElement_eq : slots.

Ltac by_cases_on_call c :=
  destruct c; cbn [append is_class is_pseudoClass render];
  autorewrite with slots;
  repeat match goal with |- context [if ?b then _ else _] => destruct b end;
  autorewrite with slots; cbn; rewrite ?app_nil_r; reflexivity.

(** Effect of one call on the three repeatable slots, whether it
    returns or throws. *)
Lemma append_attrValue (c : call) (s : t) :
  attrValue (fst (append c s))
  = match c with Attr v => "[" +:+ v +:+ "]" | _ => attrValue s end.
Proof. by_cases_on_call c. Qed.

Lemma append_classValues (c : call) (s : t) :
  classValues (fst (append c s))
  = classValues s ++ (if is_class c then [render c] else []).
Proof. by_cases_on_call c. Qed.

Lemma append_pseudoClassValues (c : call) (s : t) :
  pseudoClassValues (fst (append c s))
  = pseudoClassValues s ++ (if is_pseudoClass c then [render c] else []).
Proof. by_cases_on_call c. Qed.

Lemma performed_attrValue (cs : list call) (s : t) :
  attrValue (performed append cs s)
  = match last_attr cs with
    | Some v => "[" +:+ v +:+ "]"
    | None => attrValue s
    end.
Proof.
  revert s. induction cs as [|c cs IH]; intros s; [reflexivity|].
  cbn [performed last_attr]. rewrite IH, append_attrValue.
  destruct (last_attr cs); [reflexivity|]. now destruct c.
Qed.

Lemma performed_classValues (cs : list call) (s : t) :
  classValues (performed append cs s)
  = classValues s ++ map render (List.filter is_class cs).
Proof.
  revert s. induction cs as [|c cs IH]; intros s.
  - cbn. now rewrite app_nil_r.
  - cbn [performed List.filter]. rewrite IH, append_classValues.
    destruct (is_class c); cbn [map]; rewrite <- app_assoc; reflexivity.
Qed.

Lemma performed_pseudoClassValues (cs : list call) (s : t) :
  pseudoClassValues (performed append cs s)
  = pseudoClassValues s ++ map render (List.filter is_pseudoClass cs).
Proof.
  revert s. induction cs as [|c cs IH]; intros s.
  - cbn. now rewrite app_nil_r.
  - cbn [performed List.filter]. rewrite IH, append_pseudoClassValues.
    destruct (is_pseudoClass c); cbn [map]; rewrite <- app_assoc; reflexivity.
Qed.

(** *** The ordering rule as [Selector] enforces it *)

Lemma append_order (c : call) (s : t) :
  match append c s with
  | (s', Normal _) => order s <= rank c /\ order s' = rank c
  | (s', Throw _) => order s' = order s
  end.
Proof.
  destruct c; cbn [append rank]; autorewrite with slots;
    repeat match goal with |- context [if ?b then _ else _] => destruct b end;
    try reflexivity;
    rewrite validateOrder_eq; cbn [order set_order set_elementValue
      set_idValue push_classValues set_attrValue push_pseudoClassValues
      set_pseudoElementValue];
    match goal with |- context [?a <=? ?b] => destruct (Nat.leb_spec a b) end;
    cbn; auto.
Qed.

(** A call of a rank below the one reached throws. *)
Lemma append_lower_rank_throws (c : call) (s : t) :
  rank c < order s -> exists s' e, append c s = (s', Throw e).
Proof.
  intros Hlt. pose proof (append_order c s) as H.
  destruct (append c s) as [s' [u|e]]; [lia | eauto].
Qed.

(** [class], [attr] and [pseudoClass] return whenever no higher rank
    was reached, in particular at their own rank. *)
Lemma append_repeatable_returns (c : call) (s : t) :
  repeatable c = true -> order s <= rank c ->
  exists s', append c s = (s', Normal tt).
Proof.
  intros Hrep Hle.
  destruct c; try discriminate Hrep; cbn [append rank] in *;
    autorewrite with slots; rewrite validateOrder_eq;
    cbn [order set_order push_classValues set_attrValue
      push_pseudoClassValues];
    match goal with |- context [?a <=? ?b] => destruct (Nat.leb_spec a b) end;
    try lia; eauto.
Qed.

(** [order] is the highest rank among the calls that returned. *)
Lemma performed_order (cs : list call) (s : t) :
  order (performed append cs s)
  = Nat.max (order s) (max_rank (returned append cs s)).
Proof.
  revert s. induction cs as [|c cs IH]; intros s.
  - cbn. lia.
  - cbn [performed returned]. rewrite IH.
    pose proof (append_order c s) as H.
    destruct (append c s) as [s' [u|e]]; cbn [fst max_rank].
    + destruct H as [Hle ->]. lia.
    + now rewrite H.
Qed.

(** *** Duplicates as [Selector] detects them *)

Lemma element_duplicate_iff (v : string) (s : t) :
  snd (element v s) = Throw duplicate_then <-> elementValue s <> "".
Proof.
  rewrite element_eq, <- truthy_empty.
  destruct (truthy (elementValue s)); cbn.
  - split; [discriminate | reflexivity].
  - rewrite validateOrder_eq. destruct (_ <=? _); cbn;
      split; intros H; try discriminate H; congruence.
Qed.

Lemma id_duplicate_iff (v : string) (s : t) :
  snd (id v s) = Throw duplicate_then <-> idValue s <> "".
Proof.
  rewrite id_eq, <- truthy_empty.
  destruct (truthy (idValue s)); cbn.
  - split; [discriminate | reflexivity].
  - rewrite validateOrder_eq. destruct (_ <=? _); cbn;
      split; intros H; try discriminate H; congruence.
Qed.

Lemma pseudoElement_duplicate_iff (v : string) (s : t) :
  snd (pseudoElement v s) = Throw duplicate_once
  <-> pseudoElementValue s <> "".
Proof.
  rewrite pseudoElement_eq, <- truthy_empty.
  destruct (truthy (pseudoElementValue s)); cbn.
  - split; [discriminate | reflexivity].
  - rewrite validateOrder_eq. destruct (_ <=? _); cbn;
      split; intros H; try discriminate H; congruence.
Qed.

(** Whatever an [id] call does, the id slot is not empty after it. *)
Lemma id_leaves_slot_filled (v : string) (s : t) :
  idValue (fst (id v s)) <> "".
Proof.
  rewrite id_eq. destruct (truthy (idValue s)) eqn:E; cbn [fst].
  - intros H. apply truthy_empty in H. congruence.
  - rewrite validateOrder_idValue. discriminate.
Qed.

Lemma pseudoElement_leaves_slot_filled (v : string) (s : t) :
  pseudoElementValue (fst (pseudoElement v s)) <> "".
Proof.
  rewrite pseudoElement_eq.
  destruct (truthy (pseudoElementValue s)) eqn:E; cbn [fst].
  - intros H. apply truthy_empty in H. congruence.
  - rewrite validateOrder_pseudoElementValue. discriminate.
Qed.

(** A filled slot stays as it is through any further part calls. *)
Lemma append_keeps_elementValue (c : call) (s : t) :
  elementValue s <> "" -> elementValue (fst (append c s)) = elementValue s.
Proof.
  intros Hne. destruct c; cbn [append]; autorewrite with slots;
    try reflexivity;
    match goal with
    | |- context [if truthy ?x then _ else _] => destruct (truthy x) eqn:E
    end; autorewrite with slots; try reflexivity.
  apply truthy_empty in E. contradiction.
Qed.

Lemma append_keeps_idValue (c : call) (s : t) :
  idValue s <> "" -> idValue (fst (append c s)) = idValue s.
Proof.
  intros Hne. destruct c; cbn [append]; autorewrite with slots;
    try reflexivity;
    match goal with
    | |- context [if truthy ?x then _ else _] => destruct (truthy x) eqn:E
    end; autorewrite with slots; try reflexivity.
  apply truthy_empty in E. contradiction.
Qed.

Lemma append_keeps_pseudoElementValue (c : call) (s : t) :
  pseudoElementValue s <> "" ->
  pseudoElementValue (fst (append c s)) = pseudoElementValue s.
Proof.
  intros Hne. destruct c; cbn [append]; autorewrite with slots;
    try reflexivity;
    match goal with
    | |- context [if truthy ?x then _ else _] => destruct (truthy x) eqn:E
    end; autorewrite with slots; try reflexivity.
  apply truthy_empty in E. contradiction.
Qed.

(** Once its slot is filled, [element], [id] or [pseudoElement] throws
    the duplicate error whatever part calls were made in between. *)
Lemma element_duplicate_anywhere (cs : list call) (v : string) (s : t) :
  elementValue s <> "" ->
  snd (element v (performed append cs s)) = Throw duplicate_then.
Proof.
  intros Hne. apply element_duplicate_iff.
  revert s Hne. induction cs as [|c cs IH]; intros s Hne; [exact Hne|].
  cbn [performed]. apply IH. now rewrite append_keeps_elementValue.
Qed.

Lemma id_duplicate_anywhere (cs : list call) (v : string) (s : t) :
  idValue s <> "" ->
  snd (id v (performed append cs s)) = Throw duplicate_then.
Proof.
  intros Hne. apply id_duplicate_iff.
  revert s Hne. induction cs as [|c cs IH]; intros s Hne; [exact Hne|].
  cbn [performed]. apply IH. now rewrite append_keeps_idValue.
Qed.

Lemma pseudoElement_duplicate_anywhere (cs : list call) (v : string) (s : t) :
  pseudoElementValue s <> "" ->
  snd (pseudoElement v (performed append cs s)) = Throw duplicate_once.
Proof.
  intros Hne. apply pseudoElement_duplicate_iff.
  revert s Hne. induction cs as [|c cs IH]; intros s Hne; [exact Hne|].
  cbn [performed]. apply IH. now rewrite append_keeps_pseudoElementValue.
Qed.

(** [element('')] on a builder without element leaves it without. *)
Lemma element_empty_leaves_slot_empty (s : t) :
  elementValue s = "" -> elementValue (fst (element "" s)) = "".
Proof.
  intros H. rewrite element_eq, H. cbn [truthy].
  now rewrite validateOrder_elementValue.
Qed.

End SelectorFacts.

(** ** [CssSelectorBuilder]: what each method does to the object *)

Module CssSelectorBuilderFacts.
Import CssSelectorBuilder.

Lemma validateOrder_cases (prio : nat) (s : t) :
  validateOrder prio s
  = if too_many (selectors s) then (s, Throw duplicate)
    else if misplaced (selectors s) prio then (s, Throw out_of_order)
    else (s, Normal tt).
Proof.
  unfold validateOrder, too_many, misplaced. method_unfold.
  destruct (_ || _ || _); [reflexivity|]. now destruct (_ || _).
Qed.

(** [validateOrder] only reads the builder. *)
Lemma validateOrder_pure (prio : nat) (s : t) :
  fst (validateOrder prio s) = s.
Proof.
  rewrite validateOrder_cases.
  destruct (too_many _); [reflexivity|]. now destruct (misplaced _ _).
Qed.

Lemma append_cases (c : call) (s : t) :
  append c s
  = match validateOrder (rank c) s with
    | (_, Throw e) => (s, Throw e)
    | (_, Normal _) =>
        (match c with
         | Element _ => push (render c) (incr_elementCount s)
         | Id _ => push (render c) (incr_idCount s)
         | PseudoElement _ => push (render c) (incr_pseudoElementCount s)
         | _ => push (render c) s
         end, Normal tt)
    end.
Proof.
  destruct c; cbn [append rank render];
    unfold element, id, class, attr, pseudoClass, pseudoElement;
    method_unfold; rewrite validateOrder_cases;
    destruct (too_many _); try reflexivity;
    destruct (misplaced _ _); reflexivity.
Qed.

(** A call that throws leaves the builder as it was. *)
Lemma append_throw_unchanged (c : call) (s s' : t) (e : Error) :
  append c s = (s', Throw e) -> s' = s.
Proof.
  rewrite append_cases. destruct (validateOrder (rank c) s) as [s1 [u|e1]];
    intros H; congruence.
Qed.

(** A call that returns has pushed its fragment and nothing else. *)
Lemma append_return_pushes (c : call) (s s' : t) :
  append c s = (s', Normal tt) -> selectors s' = selectors s ++ [render c].
Proof.
  rewrite append_cases. destruct (validateOrder (rank c) s) as [s1 [u|e1]];
    intros H; [|congruence].
  injection H as <-. now destruct c.
Qed.

(** A chain that returns has pushed the fragments of its calls, in
    order. *)
Lemma chained_pushes (cs : list call) (s s' : t) :
  chained append cs s = (s', Normal tt) ->
  selectors s' = selectors s ++ map render cs.
Proof.
  revert s. induction cs as [|c cs IH]; intros s.
  - intros [= <-]. cbn. now rewrite app_nil_r.
  - cbn [chained]. unfold mbind, method_mbind, method_bind.
    destruct (append c s) as [s1 [[]|e]] eqn:E; [|discriminate].
    intros Hcs. apply IH in Hcs. apply append_return_pushes in E.
    rewrite Hcs, E. cbn [map]. now rewrite <- app_assoc.
Qed.

Lemma stringify_clears (s : t) :
  stringify s = (set_selectors [] s, Normal (join (selectors s))).
Proof. reflexivity. Qed.

Lemma store_combined_pushes (s1 c s2 : string) (s : t) :
  store_combined s1 c s2 s
  = (push (s1 +:+ " " +:+ c +:+ " " +:+ s2) s, Normal tt).
Proof. reflexivity. Qed.

End CssSelectorBuilderFacts.

(** ** [Selector] renders the sequences it admits

    When no one-string slot is written twice, the calls all return and
    [stringify()] is the concatenation of the rendered fragments in the
    order of the calls.  The ordering rule with [attr] called at most
    once is such a sequence. *)

Module SelectorRendering.
Import Selector.

Lemma stringify_text (s : t) : stringify s = (s, Normal (text s)).
Proof. apply SelectorFacts.stringify_eq. Qed.

Lemma join_nil : join [] = "".
Proof. reflexivity. Qed.

Create Rewrite HintDb text_db.
#[local] Hint Rewrite append_nil_l append_nil_r append_assoc join_snoc
  join_nil : text_db.

Lemma empty_above_mono (r r' : nat) (s : t) :
  r <= r' -> empty_above r s -> empty_above r' s.
Proof.
  unfold empty_above. intros Hle (H1 & H2 & H3 & H4 & H5 & H6).
  repeat split; intros ?; auto with lia.
Qed.

Lemma append_extends (c : call) (r : nat) (s : t) :
  (if single_slot c then r <? rank c else r <=? rank c) = true ->
  empty_above r s -> order s <= r ->
  exists s',
    append c s = (s', Normal tt)
    /\ text s' = text s +:+ render c
    /\ order s' = rank c
    /\ empty_above (rank c) s'.
Proof.
  intros Hr (H1 & H2 & H3 & H4 & H5 & H6) Ho.
  destruct s as [el i cls at_ pcs pe o]. cbn in H1, H2, H3, H4, H5, H6, Ho.
  destruct c as [v|v|v|v|v|v];
    cbn [single_slot is_class is_pseudoClass negb orb rank] in Hr;
    [apply Nat.ltb_lt in Hr | apply Nat.ltb_lt in Hr
    | apply Nat.leb_le in Hr | apply Nat.ltb_lt in Hr
    | apply Nat.leb_le in Hr | apply Nat.ltb_lt in Hr];
    cbn [append rank render];
    rewrite ?SelectorFacts.element_eq, ?SelectorFacts.id_eq,
      ?SelectorFacts.class_eq, ?SelectorFacts.attr_eq,
      ?SelectorFacts.pseudoClass_eq, ?SelectorFacts.pseudoElement_eq;
    cbn [elementValue idValue pseudoElementValue];
    rewrite ?H1, ?H2, ?H3, ?H4, ?H5, ?H6 by lia; cbn [truthy];
    rewrite SelectorFacts.validateOrder_eq;
    cbn [order set_elementValue set_idValue push_classValues set_attrValue
           push_pseudoClassValues set_pseudoElementValue elementValue idValue
           classValues attrValue pseudoClassValues pseudoElementValue];
    match goal with
    | |- context [?a <=? ?b] => destruct (Nat.leb_spec a b); [|lia]
    end;
    (eexists; split; [reflexivity|]; split; [|split; [reflexivity|]]).
  all: unfold text, empty_above;
    cbn [set_order set_elementValue set_idValue push_classValues
           set_attrValue push_pseudoClassValues set_pseudoElementValue
           elementValue idValue classValues attrValue
           pseudoClassValues pseudoElementValue rank].
  all: try (autorewrite with text_db; reflexivity).
  all: repeat apply conj; intros Hlt; cbn; try lia; reflexivity.
Qed.

Lemma chained_extends (cs : list call) (r : nat) (s : t) :
  ascends_from r cs = true -> empty_above r s -> order s <= r ->
  exists s',
    chained append cs s = (s', Normal tt)
    /\ text s' = text s +:+ join (map render cs).
Proof.
  revert r s. induction cs as [|c cs IH]; intros r s Hasc Hemp Ho.
  - exists s. split; [reflexivity|]. cbn [map]. now rewrite join_nil, append_nil_r.
  - cbn [ascends_from] in Hasc. apply andb_prop in Hasc as [Hc Hcs].
    destruct (append_extends c r s Hc Hemp Ho) as (s1 & E1 & T1 & O1 & Emp1).
    destruct (IH (rank c) s1 Hcs Emp1) as (s' & E & T); [lia|].
    exists s'. split.
    + cbn [chained]. unfold mbind, method_mbind, method_bind.
      now rewrite E1.
    + cbn [map]. now rewrite T, T1, join_cons, append_assoc.
Qed.

(** *** The ordering rule, with [attr] at most once, is such a sequence *)

Lemma ranks_ascend_tail (c : call) (cs : list call) :
  ranks_ascend (c :: cs) = true -> ranks_ascend cs = true.
Proof.
  destruct cs as [|d cs]; [reflexivity|]. cbn [ranks_ascend].
  intros H. now apply andb_prop in H as [_ H].
Qed.

Lemma ranks_ascend_head (c : call) (cs : list call) :
  ranks_ascend (c :: cs) = true -> forall d, In d cs -> rank c <= rank d.
Proof.
  revert c. induction cs as [|e cs IH]; intros c H d Hd; [destruct Hd|].
  cbn [ranks_ascend] in H. apply andb_prop in H as [Hce H].
  apply Nat.leb_le in Hce. destruct Hd as [->|Hd]; [exact Hce|].
  specialize (IH e H d Hd). lia.
Qed.

Lemma same_rank_counted (d : call) (cs : list call) :
  In d cs -> 1 <= length (List.filter (same_rank d) cs).
Proof.
  induction cs as [|c cs IH]; intros Hd; [destruct Hd|].
  cbn [List.filter]. destruct Hd as [->|Hd].
  - unfold same_rank at 1. rewrite Nat.eqb_refl. cbn. lia.
  - specialize (IH Hd). destruct (same_rank d c); cbn; lia.
Qed.

Lemma ascends_from_sorted (cs : list call) (prev : nat) :
  ranks_ascend cs = true ->
  (forall c, In c cs -> prev <= rank c) ->
  (forall c, In c cs -> single_slot c = true -> rank c <> prev) ->
  (forall c, In c cs -> single_slot c = true ->
             length (List.filter (same_rank c) cs) <= 1) ->
  ascends_from prev cs = true.
Proof.
  revert prev. induction cs as [|c cs IH]; intros prev Hs Hle Hne Hone;
    [reflexivity|].
  cbn [ascends_from]. apply andb_true_intro. split.
  - specialize (Hle c (or_introl eq_refl)).
    destruct (single_slot c) eqn:Ec.
    + specialize (Hne c (or_introl eq_refl) Ec). apply Nat.ltb_lt. lia.
    + now apply Nat.leb_le.
  - apply IH.
    + eapply ranks_ascend_tail; eassumption.
    + eapply ranks_ascend_head; eassumption.
    + intros d Hd Ed Heq.
      specialize (Hone d (or_intror Hd) Ed). cbn [List.filter] in Hone.
      pose proof (same_rank_counted d cs Hd) as H1.
      unfold same_rank at 1 in Hone. rewrite <- Heq, Nat.eqb_refl in Hone.
      cbn in Hone. lia.
    + intros d Hd Ed. specialize (Hone d (or_intror Hd) Ed).
      cbn [List.filter] in Hone. destruct (same_rank d c); cbn in Hone; lia.
Qed.

Lemma filter_same_rank (p : call -> bool) (c : call) (cs : list call) :
  (forall d, same_rank c d = p d) ->
  List.filter (same_rank c) cs = List.filter p cs.
Proof. intros H. apply List.filter_ext. exact H. Qed.

Lemma well_ordered_ascends (cs : list call) :
  well_ordered cs = true -> at_most_once is_attr cs = true ->
  ascends_from 0 cs = true.
Proof.
  unfold well_ordered, at_most_once. intros H Hattr.
  apply andb_prop in H as [H Hsorted]. apply andb_prop in H as [H Hpe].
  apply andb_prop in H as [Hel Hid].
  apply Nat.leb_le in Hel, Hid, Hpe, Hattr.
  apply ascends_from_sorted; [exact Hsorted | intros; lia | |].
  - intros c _ _. destruct c; discriminate.
  - intros c _ Ec.
    destruct c; try discriminate Ec;
      [rewrite (filter_same_rank is_element)
      |rewrite (filter_same_rank is_id)
      |rewrite (filter_same_rank is_attr)
      |rewrite (filter_same_rank is_pseudoElement)];
      try assumption; intros d; now destruct d.
Qed.

(** The claim of C1 on [Selector], for sequences with one [attr] at
    most. *)
Lemma well_ordered_rendered (cs : list call) :
  well_ordered cs = true -> at_most_once is_attr cs = true ->
  exists s,
    chained append cs new = (s, Normal tt)
    /\ stringify s = (s, Normal (join (map render cs))).
Proof.
  intros Hwo Hattr.
  destruct (chained_extends cs 0 new) as (s & E & T).
  - now apply well_ordered_ascends.
  - repeat split; reflexivity.
  - reflexivity.
  - exists s. split; [exact E|]. rewrite stringify_text, T. reflexivity.
Qed.

End SelectorRendering.

(** ** Rendering ([stringify]) *)

(** C1.  In [Selector], a sequence the ordering rule admits is not always
    rendered as the concatenation of its fragments: the calls
    [element('a').attr('x').attr('y')] respect the ranks and all return,
    yet [stringify()] gives ["a[y]"] where the concatenation of the
    rendered fragments is ["a[x][y]"]; the first [attr] is lost. *)
Theorem selector_drops_earlier_attr :
  let cs := [Element "a"; Attr "x"; Attr "y"] in
  well_ordered cs = true
  /\ (exists s, chained Selector.append cs Selector.new = (s, Normal tt)
              /\ snd (Selector.stringify s) = Normal "a[y]")
  /\ join (map render cs) = "a[x][y]".
Proof.
  cbv zeta. split; [reflexivity|]. split; [|reflexivity].
  eexists. split; reflexivity.
Qed.

(** C10.  In [Selector], [attr] overwrites the attribute slot while
    [class] and [pseudoClass] accumulate: after any calls made on any
    builder, the attribute slot holds the bracketed argument of the last
    [attr] call alone (or what it held, when [attr] was not called),
    every [class] and [pseudoClass] call has added its own fragment, and
    [stringify()] renders that single attribute fragment between the
    classes and the pseudo-classes. *)
Theorem selector_attr_keeps_last_only (s : Selector.t) (cs : list call) :
  let s' := performed Selector.append cs s in
  Selector.attrValue s'
  = match last_attr cs with
    | Some v => "[" +:+ v +:+ "]"
    | None => Selector.attrValue s
    end
  /\ Selector.classValues s'
     = Selector.classValues s ++ map render (List.filter is_class cs)
  /\ Selector.pseudoClassValues s'
     = Selector.pseudoClassValues s
       ++ map render (List.filter is_pseudoClass cs)
  /\ Selector.stringify s'
     = (s', Normal (Selector.elementValue s' +:+ Selector.idValue s'
                    +:+ join (Selector.classValues s')
                    +:+ Selector.attrValue s'
                    +:+ join (Selector.pseudoClassValues s')
                    +:+ Selector.pseudoElementValue s')).
Proof.
  cbv zeta. repeat split.
  - apply SelectorFacts.performed_attrValue.
  - apply SelectorFacts.performed_classValues.
  - apply SelectorFacts.performed_pseudoClassValues.
  - apply SelectorFacts.stringify_eq.
Qed.

(** C4, as stated, fails on [Selector]: after [element('a')] the second
    [stringify()] returns ["a"] again, not the empty string. *)
Lemma selector_stringify_twice_not_empty :
  let s := fst (Selector.element "a" Selector.new) in
  let s1 := fst (Selector.stringify s) in
  snd (Selector.stringify s) = Normal "a"
  /\ snd (Selector.stringify s1) = Normal "a"
  /\ snd (Selector.stringify s1) <> Normal "".
Proof.
  cbv zeta. split; [reflexivity|]. split; [reflexivity | discriminate].
Qed.

(** C4, amended.  [CssSelectorBuilder.stringify()] is a destructive read:
    on every builder it returns the concatenation of the fragments held,
    leaves the builder without fragments, and a second call returns the
    empty string; after a chain of part calls that returned, the first
    call returns the concatenation of their fragments.
    [Selector.stringify()] changes nothing: the builder is as before and
    a second call returns the same string as the first. *)
Theorem stringify_twice :
  (forall s : CssSelectorBuilder.t,
     exists s1,
       CssSelectorBuilder.stringify s
       = (s1, Normal (join (CssSelectorBuilder.selectors s)))
       /\ CssSelectorBuilder.selectors s1 = []
       /\ CssSelectorBuilder.stringify s1 = (s1, Normal ""))
  /\ (forall (cs : list call) (s : CssSelectorBuilder.t),
        chained CssSelectorBuilder.append cs CssSelectorBuilder.new
        = (s, Normal tt) ->
        exists s1,
          CssSelectorBuilder.stringify s = (s1, Normal (join (map render cs)))
          /\ CssSelectorBuilder.stringify s1 = (s1, Normal ""))
  /\ (forall s : Selector.t,
        exists str,
          Selector.stringify s = (s, Normal str)
          /\ Selector.stringify (fst (Selector.stringify s)) = (s, Normal str)).
Proof.
  split; [|split].
  - intros s. eexists. rewrite CssSelectorBuilderFacts.stringify_clears.
    split; [reflexivity|]. split; reflexivity.
  - intros cs s Hcs. apply CssSelectorBuilderFacts.chained_pushes in Hcs.
    eexists. rewrite CssSelectorBuilderFacts.stringify_clears, Hcs.
    split; reflexivity.
  - intros s. eexists. rewrite SelectorFacts.stringify_eq.
    split; [reflexivity|]. cbn [fst]. apply SelectorFacts.stringify_eq.
Qed.

Lemma stringify_twice_witness :
  let cs := [Element "a"; Id "b"] in
  let s := fst (chained CssSelectorBuilder.append cs CssSelectorBuilder.new) in
  chained CssSelectorBuilder.append cs CssSelectorBuilder.new = (s, Normal tt)
  /\ exists s1,
       CssSelectorBuilder.stringify s = (s1, Normal (join (map render cs)))
       /\ CssSelectorBuilder.stringify s1 = (s1, Normal "").
Proof.
  intros cs s.
  assert (H : chained CssSelectorBuilder.append cs CssSelectorBuilder.new
              = (s, Normal tt)) by reflexivity.
  split; [exact H|].
  exact (proj1 (proj2 stringify_twice) cs s H).
Defined.

(** ** Failing calls *)

(** C6.  In [Selector] a call that throws the ordering error has already
    stored its fragment: on the builder left by [attr('x')], the call
    [class('y')] throws, and the builder then holds the class fragment
    [".y"] that it did not hold before, so that [stringify()] changes
    from ["[x]"] to [".y[x]"]. *)
Theorem selector_class_stores_before_throwing :
  let s := fst (Selector.attr "x" Selector.new) in
  exists s',
    Selector.class "y" s = (s', Throw Selector.out_of_order)
    /\ Selector.classValues s = []
    /\ Selector.classValues s' = [".y"]
    /\ snd (Selector.stringify s) = Normal "[x]"
    /\ snd (Selector.stringify s') = Normal ".y[x]".
Proof. cbv zeta. eexists. repeat split. Qed.

(** C2.  [CssSelectorBuilder] accepts a second element, a second id and
    a second pseudo-element: [element('a').element('b')],
    [id('a').id('b')] and [pseudoElement('a').pseudoElement('b')] all
    return, and the builder holds both fragments. *)
Theorem css_builder_accepts_duplicates :
  (exists s,
     chained CssSelectorBuilder.append [Element "a"; Element "b"]
       CssSelectorBuilder.new = (s, Normal tt)
     /\ CssSelectorBuilder.selectors s = ["a"; "b"])
  /\ (exists s,
        chained CssSelectorBuilder.append [Id "a"; Id "b"]
          CssSelectorBuilder.new = (s, Normal tt)
        /\ CssSelectorBuilder.selectors s = ["#a"; "#b"])
  /\ (exists s,
        chained CssSelectorBuilder.append [PseudoElement "a"; PseudoElement "b"]
          CssSelectorBuilder.new = (s, Normal tt)
        /\ CssSelectorBuilder.selectors s = ["::a"; "::b"]).
Proof. repeat split; eexists; split; reflexivity. Qed.

(** C3.  [CssSelectorBuilder] neither rejects a lower rank after a higher
    one nor accepts every repeated rank: [attr('x').class('y')] returns,
    and the third call of [class('a').class('b').class('c')] throws. *)
Theorem css_builder_order_check_misses :
  (exists s,
     chained CssSelectorBuilder.append [Attr "x"; Class "y"]
       CssSelectorBuilder.new = (s, Normal tt)
     /\ CssSelectorBuilder.selectors s = ["[x]"; ".y"])
  /\ (exists s,
        chained CssSelectorBuilder.append [Class "a"; Class "b"]
          CssSelectorBuilder.new = (s, Normal tt)
        /\ CssSelectorBuilder.class "c" s
           = (s, Throw CssSelectorBuilder.duplicate)).
Proof. repeat split; eexists; split; reflexivity. Qed.

(** The first chain of the documentation on [CssSelectorBuilder]:
    [id('main').class('container')] already throws, the last fragment
    being an id and the call not [id]. *)
Example css_builder_rejects_documented_chain :
  outcome (Obj := CssSelectorBuilder.t)
    (eval_stringify
       (Then (Then (Start (Id "main")) (Class "container")) (Class "editable")))
  = Some (Throw CssSelectorBuilder.out_of_order)
  /\ outcome (Obj := Selector.t)
       (eval_stringify
          (Then (Then (Start (Id "main")) (Class "container")) (Class "editable")))
     = Some (Normal "#main.container.editable").
Proof. split; vm_compute; reflexivity. Qed.

(** ** Duplicate detection *)

(** C9, as stated, fails for [id] and [pseudoElement]: the fragment stored
    for the empty name is ["#"] or ["::"], which is truthy, so the second
    call of [id('').id('x')] and of [pseudoElement('').pseudoElement('x')]
    throws. *)
Lemma selector_empty_id_counts_as_present :
  snd (Selector.id "x" (fst (Selector.id "" Selector.new)))
  = Throw Selector.duplicate_then
  /\ snd (Selector.pseudoElement "x"
            (fst (Selector.pseudoElement "" Selector.new)))
     = Throw Selector.duplicate_once.
Proof. split; reflexivity. Qed.

(** C9, amended.  The duplicate checks of [Selector] test the truthiness
    of the stored fragment: [element], [id] and [pseudoElement] throw the
    duplicate error exactly when their slot is not the empty string.
    Only [element] stores the bare name, so only an element given the
    empty name does not count as present: after [element('')] on a
    builder without element, a further [element] call is not rejected as
    a duplicate, and [element('').element('div')] on a new builder
    returns.  [id] and [pseudoElement] store the name behind ["#"] and
    ["::"], so after any [id] call every further [id] call throws the
    duplicate error, and likewise for [pseudoElement]. *)
Theorem selector_duplicate_check_is_truthiness :
  (forall s v, snd (Selector.element v s) = Throw Selector.duplicate_then
               <-> Selector.elementValue s <> "")
  /\ (forall s v, snd (Selector.id v s) = Throw Selector.duplicate_then
                  <-> Selector.idValue s <> "")
  /\ (forall s v, snd (Selector.pseudoElement v s) = Throw Selector.duplicate_once
                  <-> Selector.pseudoElementValue s <> "")
  /\ (forall s v, Selector.elementValue s = "" ->
        snd (Selector.element v (fst (Selector.element "" s)))
        <> Throw Selector.duplicate_then)
  /\ (exists s, chained Selector.append [Element ""; Element "div"] Selector.new
                = (s, Normal tt)
                /\ Selector.elementValue s = "div")
  /\ (forall s v w, snd (Selector.id w (fst (Selector.id v s)))
                    = Throw Selector.duplicate_then)
  /\ (forall s v w,
        snd (Selector.pseudoElement w (fst (Selector.pseudoElement v s)))
        = Throw Selector.duplicate_once).
Proof.
  split; [intros; apply SelectorFacts.element_duplicate_iff|].
  split; [intros; apply SelectorFacts.id_duplicate_iff|].
  split; [intros; apply SelectorFacts.pseudoElement_duplicate_iff|].
  split.
  { intros s v H. rewrite SelectorFacts.element_duplicate_iff.
    intros Hne. apply Hne. now apply SelectorFacts.element_empty_leaves_slot_empty. }
  split; [eexists; split; reflexivity|].
  split.
  - intros s v w. apply SelectorFacts.id_duplicate_iff,
      SelectorFacts.id_leaves_slot_filled.
  - intros s v w. apply SelectorFacts.pseudoElement_duplicate_iff,
      SelectorFacts.pseudoElement_leaves_slot_filled.
Qed.

Lemma selector_duplicate_check_is_truthiness_witness :
  Selector.elementValue (fst (Selector.element "a" Selector.new)) <> ""
  /\ snd (Selector.element "b" (fst (Selector.element "a" Selector.new)))
     = Throw Selector.duplicate_then
  /\ Selector.elementValue Selector.new = ""
  /\ snd (Selector.element "div" (fst (Selector.element "" Selector.new)))
     <> Throw Selector.duplicate_then.
Proof.
  assert (H : Selector.elementValue (fst (Selector.element "a" Selector.new)) <> "")
    by (cbn; discriminate).
  split; [exact H|].
  split.
  - exact (proj2 (proj1 selector_duplicate_check_is_truthiness _ "b") H).
  - split; [reflexivity|].
    exact (proj1 (proj2 (proj2 (proj2 selector_duplicate_check_is_truthiness)))
             Selector.new "div" eq_refl).
Defined.

(** ** The store *)

Section StoreFacts.
Context {Obj : Type}.
Implicit Types (h : gmap loc Obj) (l : loc) (o : Obj).

Lemma bind_normal {A B} (p : program Obj A) (k : A -> program Obj B) h h1 a :
  p h = Some (h1, Normal a) -> (p ≫= k) h = k a h1.
Proof.
  intros Hp. unfold mbind, program_mbind, program_bind. now rewrite Hp.
Qed.

Lemma bind_throw {A B} (p : program Obj A) (k : A -> program Obj B) h h1 e :
  p h = Some (h1, Throw e) -> (p ≫= k) h = Some (h1, Throw e).
Proof.
  intros Hp. unfold mbind, program_mbind, program_bind. now rewrite Hp.
Qed.

Lemma fresh_unused h : h !! fresh (dom h) = None.
Proof. apply not_elem_of_dom, is_fresh. Qed.

Lemma construct_eq o h :
  construct o h = Some (<[fresh (dom h) := o]> h, Normal (fresh (dom h))).
Proof. reflexivity. Qed.

Lemma invoke_eq {A} l (m : method Obj A) h o :
  h !! l = Some o ->
  invoke l m h = Some (<[l := fst (m o)]> h, snd (m o)).
Proof. intros Hl. unfold invoke. rewrite Hl. now destruct (m o). Qed.

Lemma chain_eq this (m : method Obj unit) h o :
  h !! this = Some o ->
  chain this m h
  = Some (<[this := fst (m o)]> h,
          match snd (m o) with
          | Normal _ => Normal this
          | Throw e => Throw e
          end).
Proof.
  intros Hl. unfold chain.
  destruct (m o) as [o' [u|e]] eqn:E.
  - erewrite bind_normal by (erewrite invoke_eq by eassumption;
                             rewrite E; reflexivity).
    reflexivity.
  - erewrite bind_throw by (erewrite invoke_eq by eassumption;
                            rewrite E; reflexivity).
    reflexivity.
Qed.

(** A method call changes no object but its receiver. *)
Lemma chain_frame this (m : method Obj unit) h h' res :
  chain this m h = Some (h', res) ->
  forall x, x <> this -> h' !! x = h !! x.
Proof.
  intros E x Hx. destruct (h !! this) as [o|] eqn:Ho.
  - rewrite (chain_eq _ _ _ _ Ho) in E. injection E as <- _.
    now rewrite lookup_insert_ne.
  - unfold chain, invoke, mbind, program_mbind, program_bind in E.
    rewrite Ho in E. discriminate E.
Qed.

(** A facade entry point: [new], then the method, on no other object. *)
Lemma construct_chain_eq o (m : method Obj unit) h :
  (construct o ≫= λ this, chain this m) h
  = Some (<[fresh (dom h) := fst (m o)]> h,
          match snd (m o) with
          | Normal _ => Normal (fresh (dom h))
          | Throw e => Throw e
          end).
Proof.
  erewrite bind_normal by apply construct_eq.
  erewrite chain_eq by apply lookup_insert_eq.
  now rewrite insert_insert_eq.
Qed.

End StoreFacts.

Module SelectorStore.
Import Selector.

Lemma stringify_at (l : loc) (h : gmap loc t) (a : t) :
  h !! l = Some a ->
  exists s1, stringify a = (a, Normal s1)
             /\ invoke l stringify h = Some (h, Normal s1).
Proof.
  intros Hl. eexists. split; [apply SelectorFacts.stringify_eq|].
  erewrite invoke_eq by eassumption.
  rewrite SelectorFacts.stringify_eq. cbn [fst snd].
  now rewrite insert_id.
Qed.

(** [combine] reads both operands and assigns the element slot of the
    receiver. *)
Lemma combine_eq (this l : loc) (k : string) (r : loc) (h : gmap loc t)
      (o a b : t) (s1 s2 : string) :
  h !! this = Some o -> h !! l = Some a -> h !! r = Some b ->
  stringify a = (a, Normal s1) -> stringify b = (b, Normal s2) ->
  combine this l k r h
  = Some (<[this := set_elementValue (s1 +:+ " " +:+ k +:+ " " +:+ s2) o]> h,
          Normal this).
Proof.
  intros Hthis Hl Hr Ha Hb. unfold combine.
  destruct (stringify_at l h a Hl) as (s1' & Ha' & Hil).
  destruct (stringify_at r h b Hr) as (s2' & Hb' & Hir).
  assert (s1' = s1) as -> by congruence.
  assert (s2' = s2) as -> by congruence.
  erewrite bind_normal by exact Hil.
  erewrite bind_normal by exact Hir.
  erewrite chain_eq by eassumption. reflexivity.
Qed.

Lemma facade_start_eq (c : call) (h : gmap loc t) :
  cssSelectorBuilder.start c h
  = Some (<[fresh (dom h) := fst (append c new)]> h, Normal (fresh (dom h))).
Proof.
  destruct c; cbn [cssSelectorBuilder.start];
    unfold cssSelectorBuilder.element, cssSelectorBuilder.id,
      cssSelectorBuilder.class, cssSelectorBuilder.attr,
      cssSelectorBuilder.pseudoClass, cssSelectorBuilder.pseudoElement;
    rewrite construct_chain_eq; reflexivity.
Qed.

Lemma facade_combine_eq (l : loc) (k : string) (r : loc) (h : gmap loc t)
      (a b : t) (s1 s2 : string) :
  h !! l = Some a -> h !! r = Some b ->
  stringify a = (a, Normal s1) -> stringify b = (b, Normal s2) ->
  cssSelectorBuilder.combine l k r h
  = Some (<[fresh (dom h)
            := set_elementValue (s1 +:+ " " +:+ k +:+ " " +:+ s2) new]> h,
          Normal (fresh (dom h))).
Proof.
  intros Hl Hr Ha Hb. unfold cssSelectorBuilder.combine.
  pose proof (fresh_unused h) as Hf.
  erewrite bind_normal by apply construct_eq.
  rewrite (combine_eq _ l k r _ new a b s1 s2);
    [| apply lookup_insert_eq | | | exact Ha | exact Hb].
  - now rewrite insert_insert_eq.
  - rewrite lookup_insert_ne by congruence. exact Hl.
  - rewrite lookup_insert_ne by congruence. exact Hr.
Qed.

#[global] Instance selector_laws : BuilderLaws t.
Proof.
  split.
  - intros c h. eexists. apply facade_start_eq.
  - intros l k r h [a Hl] [b Hr].
    destruct (stringify_at l h a Hl) as (s1 & Ha & _).
    destruct (stringify_at r h b Hr) as (s2 & Hb & _).
    eexists. split; [eapply facade_combine_eq; eassumption|].
    split.
    + rewrite lookup_insert_eq. eauto.
    + intros x Hx _ _. now rewrite lookup_insert_ne.
  - intros this l k r h [o Ho] [a Hl] [b Hr].
    destruct (stringify_at l h a Hl) as (s1 & Ha & _).
    destruct (stringify_at r h b Hr) as (s2 & Hb & _).
    eexists. split; [eapply combine_eq; eassumption|].
    split.
    + rewrite lookup_insert_eq. eauto.
    + intros x Hx _ _. now rewrite lookup_insert_ne.
Qed.

End SelectorStore.

Module CssSelectorBuilderStore.
Import CssSelectorBuilder.

Lemma stringify_at_clears (l : loc) (h : gmap loc t) (a : t) :
  h !! l = Some a ->
  invoke l stringify h
  = Some (<[l := set_selectors [] a]> h, Normal (join (selectors a))).
Proof. intros Hl. now erewrite invoke_eq by eassumption. Qed.

(** [combine] on a receiver that is neither operand: both operands are
    rendered and emptied, then the fragment is pushed. *)
Lemma combine_pushes (this l : loc) (k : string) (r : loc) (h : gmap loc t)
      (o : t) :
  h !! this = Some o -> this <> l -> this <> r ->
  is_Some (h !! l) -> is_Some (h !! r) ->
  exists h1 s1 h2 s2,
    invoke l stringify h = Some (h1, Normal s1)
    /\ invoke r stringify h1 = Some (h2, Normal s2)
    /\ h2 !! this = Some o
    /\ (forall x, x <> l -> x <> r -> h2 !! x = h !! x)
    /\ combine this l k r h
       = Some (<[this := push (s1 +:+ " " +:+ k +:+ " " +:+ s2) o]> h2,
               Normal this).
Proof.
  intros Hthis Hnl Hnr [a Hl] Hr.
  pose proof (stringify_at_clears l h a Hl) as H1.
  assert (is_Some (<[l := set_selectors [] a]> h !! r)) as [b Hb].
  { destruct (decide (l = r)) as [->|Hne].
    - rewrite lookup_insert_eq. eauto.
    - now rewrite lookup_insert_ne. }
  pose proof (stringify_at_clears r _ b Hb) as H2.
  do 4 eexists. split; [exact H1|]. split; [exact H2|].
  assert (Hf : forall x, x <> l -> x <> r ->
                 <[r := set_selectors [] b]> (<[l := set_selectors [] a]> h) !! x
                 = h !! x).
  { intros x Hxl Hxr. now rewrite !lookup_insert_ne. }
  split; [rewrite Hf by congruence; exact Hthis|].
  split; [exact Hf|].
  unfold combine.
  erewrite bind_normal by exact H1.
  erewrite bind_normal by exact H2.
  destruct (decide (this = l ∨ this = r)) as [[?|?]|_]; [congruence..|].
  erewrite chain_eq by (rewrite Hf by congruence; exact Hthis).
  reflexivity.
Qed.

(** [combine] on any receiver returns it, and changes no other object
    than the receiver and the operands. *)
Lemma combine_frame (this l : loc) (k : string) (r : loc) (h : gmap loc t) :
  is_Some (h !! this) -> is_Some (h !! l) -> is_Some (h !! r) ->
  exists h', combine this l k r h = Some (h', Normal this)
             /\ is_Some (h' !! this)
             /\ forall x, x <> this -> x <> l -> x <> r -> h' !! x = h !! x.
Proof.
  intros [o Ho] [a Hl] Hr.
  pose proof (stringify_at_clears l h a Hl) as H1.
  assert (is_Some (<[l := set_selectors [] a]> h !! r)) as [b Hb].
  { destruct (decide (l = r)) as [->|Hne].
    - rewrite lookup_insert_eq. eauto.
    - now rewrite lookup_insert_ne. }
  pose proof (stringify_at_clears r _ b Hb) as H2.
  set (h2 := <[r := set_selectors [] b]> (<[l := set_selectors [] a]> h)).
  assert (Hf : forall x, x <> l -> x <> r -> h2 !! x = h !! x).
  { intros x Hxl Hxr. unfold h2. now rewrite !lookup_insert_ne. }
  assert (is_Some (h2 !! this)) as [o' Ho'].
  { unfold h2. destruct (decide (r = this)) as [->|Hne1].
    - rewrite lookup_insert_eq. eauto.
    - rewrite lookup_insert_ne by exact Hne1.
      destruct (decide (l = this)) as [->|Hne2].
      + rewrite lookup_insert_eq. eauto.
      + rewrite lookup_insert_ne by exact Hne2. eauto. }
  unfold combine.
  erewrite bind_normal by exact H1.
  erewrite bind_normal by exact H2.
  fold h2.
  destruct (decide (this = l ∨ this = r)) as [_|_];
    (erewrite chain_eq by exact Ho');
    (eexists; split; [reflexivity|]; split;
     [rewrite lookup_insert_eq; eauto
     |intros x Hx Hxl Hxr; rewrite lookup_insert_ne by congruence;
      now apply Hf]).
Qed.

Lemma facade_start_adds (c : call) (h : gmap loc t) :
  cssSelectorBuilder.start c h
  = Some (<[fresh (dom h) := fst (append c new)]> h, Normal (fresh (dom h))).
Proof.
  destruct c; cbn [cssSelectorBuilder.start];
    unfold cssSelectorBuilder.element, cssSelectorBuilder.id,
      cssSelectorBuilder.class, cssSelectorBuilder.attr,
      cssSelectorBuilder.pseudoClass, cssSelectorBuilder.pseudoElement;
    rewrite construct_chain_eq; reflexivity.
Qed.

(** The facade's [combine]: the operands are rendered as they would be
    without the new builder, which then holds the one fragment. *)
Lemma facade_combine_pushes (l : loc) (k : string) (r : loc) (h : gmap loc t) :
  is_Some (h !! l) -> is_Some (h !! r) ->
  exists h1 s1 h2 s2,
    invoke l stringify h = Some (h1, Normal s1)
    /\ invoke r stringify h1 = Some (h2, Normal s2)
    /\ cssSelectorBuilder.combine l k r h
       = Some (<[fresh (dom h)
                 := push (s1 +:+ " " +:+ k +:+ " " +:+ s2) new]> h2,
               Normal (fresh (dom h)))
    /\ forall x, x <> l -> x <> r -> h2 !! x = h !! x.
Proof.
  intros [a Hl] Hr.
  pose proof (fresh_unused h) as Hf.
  assert (Hnl : fresh (dom h) <> l) by congruence.
  assert (Hnr : fresh (dom h) <> r) by (destruct Hr; congruence).
  pose proof (stringify_at_clears l h a Hl) as H1.
  assert (is_Some (<[l := set_selectors [] a]> h !! r)) as [b Hb].
  { destruct (decide (l = r)) as [->|Hne].
    - rewrite lookup_insert_eq. eauto.
    - now rewrite lookup_insert_ne. }
  pose proof (stringify_at_clears r _ b Hb) as H2.
  do 4 eexists. split; [exact H1|]. split; [exact H2|].
  split; [|intros x Hxl Hxr; now rewrite !lookup_insert_ne].
  unfold cssSelectorBuilder.combine.
  erewrite bind_normal by apply construct_eq.
  set (this := fresh (dom h)) in *.
  destruct (combine_pushes this l k r (<[this := new]> h) new)
    as (h1' & s1' & h2' & s2' & E1 & E2 & _ & _ & ->);
    [apply lookup_insert_eq | assumption | assumption
    | rewrite lookup_insert_ne by assumption; eauto
    | rewrite lookup_insert_ne by assumption; assumption |].
  erewrite stringify_at_clears in E1
    by (rewrite lookup_insert_ne by assumption; exact Hl).
  injection E1 as <- <-.
  assert (Hb' : <[l := set_selectors [] a]> (<[this := new]> h) !! r = Some b).
  { rewrite <- Hb. destruct (decide (l = r)) as [->|Hne].
    - now rewrite !lookup_insert_eq.
    - rewrite !(lookup_insert_ne _ l r) by assumption.
      now rewrite lookup_insert_ne by assumption. }
  rewrite (stringify_at_clears _ _ _ Hb') in E2.
  injection E2 as <- <-.
  f_equal. f_equal. apply map_eq. intros x.
  destruct (decide (x = this)) as [->|Hx].
  - now rewrite !lookup_insert_eq.
  - rewrite (lookup_insert_ne _ this x) by congruence.
    rewrite (lookup_insert_ne _ this x) by congruence.
    destruct (decide (x = r)) as [->|Hxr].
    + now rewrite !lookup_insert_eq.
    + rewrite !(lookup_insert_ne _ r x) by congruence.
      destruct (decide (x = l)) as [->|Hxl].
      * now rewrite !lookup_insert_eq.
      * rewrite !(lookup_insert_ne _ l x) by congruence.
        now rewrite lookup_insert_ne by congruence.
Qed.

#[global] Instance css_builder_laws : BuilderLaws t.
Proof.
  split.
  - intros c h. eexists. apply facade_start_adds.
  - intros l k r h Hl Hr.
    destruct (facade_combine_pushes l k r h Hl Hr)
      as (h1 & s1 & h2 & s2 & _ & _ & E & Hf).
    eexists. split; [exact E|]. split.
    + rewrite lookup_insert_eq. eauto.
    + intros x Hx Hxl Hxr. rewrite lookup_insert_ne by congruence.
      now apply Hf.
  - intros this l k r h. apply combine_frame.
Qed.

End CssSelectorBuilderStore.

(** ** Expressions touch only the builders they create *)

Section Frame.
Context {Obj : Type} `{BuilderLaws Obj}.
Implicit Types (h : gmap loc Obj) (e : expr).

Lemma rendering_lookup (x : loc) h h' :
  h' !! x = h !! x -> rendering x h' = rendering x h.
Proof.
  intros E. unfold rendering, invoke. rewrite E.
  destruct (h !! x) as [o|]; [|reflexivity].
  now destruct (method_stringify o).
Qed.

Lemma unused_below h h' (x : loc) : h ⊆ h' -> h' !! x = None -> h !! x = None.
Proof.
  intros Hsub Hx. destruct (h !! x) as [o|] eqn:E; [|reflexivity].
  eapply lookup_weaken in E; [|exact Hsub]. congruence.
Qed.

Lemma eval_frame e h :
  exists h' res,
    eval e h = Some (h', res)
    /\ h ⊆ h'
    /\ match res with
       | Normal this => h !! this = None /\ is_Some (h' !! this)
       | Throw _ => True
       end.
Proof.
  revert h. induction e as [c | e0 IH0 c | e1 IH1 k e2 IH2
                           | e0 IH0 e1 IH1 k e2 IH2]; intros h; cbn [eval].
  - destruct (facade_start_adds_one c h) as [o E].
    do 2 eexists. split; [exact E|]. pose proof (fresh_unused h) as Hf.
    split; [now apply insert_subseteq|].
    split; [exact Hf | rewrite lookup_insert_eq; eauto].
  - destruct (IH0 h) as (h1 & [this|err] & E & Hsub & Hres).
    + destruct Hres as [Hnone [o Ho]].
      erewrite bind_normal by exact E. erewrite chain_eq by exact Ho.
      do 2 eexists. split; [reflexivity|].
      split; [now apply insert_subseteq_r|].
      destruct (snd (method_append c o)); [|exact I].
      split; [exact Hnone | rewrite lookup_insert_eq; eauto].
    + erewrite bind_throw by exact E. eauto.
  - destruct (IH1 h) as (h1 & [l|err] & E1 & Hsub1 & Hres1);
      [|erewrite bind_throw by exact E1; eauto].
    destruct Hres1 as [Hl [a Ha]].
    erewrite bind_normal by exact E1.
    destruct (IH2 h1) as (h2 & [r|err] & E2 & Hsub2 & Hres2);
      [|erewrite bind_throw by exact E2;
        do 2 eexists; split; [reflexivity|]; split; [|exact I];
        now transitivity h1].
    destruct Hres2 as [Hr Hr2].
    erewrite bind_normal by exact E2.
    destruct (facade_combine_adds_one l k r h2) as (h3 & E3 & Hnew & Hf);
      [eexists; eapply lookup_weaken; eassumption | exact Hr2 |].
    do 2 eexists. split; [exact E3|].
    assert (Hsub : h ⊆ h2) by now transitivity h1.
    pose proof (fresh_unused h2) as Hfresh.
    split.
    + apply map_subseteq_spec. intros x o Hx.
      assert (Hx1 : h1 !! x = Some o) by (eapply lookup_weaken; eassumption).
      assert (Hx2 : h2 !! x = Some o) by (eapply lookup_weaken; eassumption).
      rewrite Hf; [exact Hx2 | congruence..].
    + split; [eapply unused_below; eassumption | exact Hnew].
  - destruct (IH0 h) as (h0 & [this|err] & E0 & Hsub0 & Hres0);
      [|erewrite bind_throw by exact E0; eauto].
    destruct Hres0 as [Hthis [o Ho]].
    erewrite bind_normal by exact E0.
    destruct (IH1 h0) as (h1 & [l|err] & E1 & Hsub1 & Hres1);
      [|erewrite bind_throw by exact E1;
        do 2 eexists; split; [reflexivity|]; split; [|exact I];
        now transitivity h0].
    destruct Hres1 as [Hl [a Ha]].
    erewrite bind_normal by exact E1.
    destruct (IH2 h1) as (h2 & [r|err] & E2 & Hsub2 & Hres2);
      [|erewrite bind_throw by exact E2;
        do 2 eexists; split; [reflexivity|]; split; [|exact I];
        transitivity h0; [assumption | now transitivity h1]].
    destruct Hres2 as [Hr Hr2].
    erewrite bind_normal by exact E2.
    assert (Hsub02 : h0 ⊆ h2) by now transitivity h1.
    destruct (method_combine_changes_three this l k r h2) as (h3 & E3 & Hnew & Hf);
      [eexists; eapply lookup_weaken; eassumption
      |eexists; eapply lookup_weaken; eassumption
      |exact Hr2 |].
    do 2 eexists. split; [exact E3|].
    split.
    + apply map_subseteq_spec. intros x ox Hx.
      assert (Hx0 : h0 !! x = Some ox) by (eapply lookup_weaken; eassumption).
      assert (Hx1 : h1 !! x = Some ox) by (eapply lookup_weaken; eassumption).
      assert (Hx2 : h2 !! x = Some ox) by (eapply lookup_weaken; eassumption).
      rewrite Hf; [exact Hx2 | congruence..].
    + split; [exact Hthis | exact Hnew].
Qed.

(** An expression leaves every builder that existed before it as it
    was, with the same rendering, and its value is a builder that did
    not exist. *)
Lemma eval_leaves_others e h :
  exists h' res,
    eval e h = Some (h', res)
    /\ (forall x o, h !! x = Some o ->
                    h' !! x = Some o /\ rendering x h' = rendering x h)
    /\ (forall this, res = Normal this ->
                     h !! this = None /\ is_Some (h' !! this)).
Proof.
  destruct (eval_frame e h) as (h' & res & E & Hsub & Hres).
  exists h', res. split; [exact E|]. split.
  - intros x o Hx.
    assert (Hx' : h' !! x = Some o) by (eapply lookup_weaken; eassumption).
    split; [exact Hx'|]. apply rendering_lookup. congruence.
  - intros this ->. exact Hres.
Qed.

End Frame.

(** ** [combine] *)

(** C5.  The facade's [combine(left, c, right)], for any two builders and
    any combinator, yields a new builder holding exactly one fragment,
    the string [left.stringify() + " " + c + " " + right.stringify()]
    with the two calls made in that order, and that string is what the
    new builder renders; this holds in both classes.  The documented
    combinations render as ["div#main + span"] and, nested, as
    ["table ~ tr   td"] with its three spaces. *)
Theorem combine_yields_one_fragment :
  (forall (h : gmap loc Selector.t) (left : loc) (c : string) (right : loc),
     is_Some (h !! left) -> is_Some (h !! right) ->
     exists h1 s1 h2 s2 h',
       invoke left Selector.stringify h = Some (h1, Normal s1)
       /\ invoke right Selector.stringify h1 = Some (h2, Normal s2)
       /\ Selector.cssSelectorBuilder.combine left c right h
          = Some (h', Normal (fresh (dom h)))
       /\ h !! fresh (dom h) = None
       /\ h' !! fresh (dom h)
          = Some (Selector.set_elementValue
                    (s1 +:+ " " +:+ c +:+ " " +:+ s2) Selector.new)
       /\ rendering (fresh (dom h)) h'
          = Some (Normal (s1 +:+ " " +:+ c +:+ " " +:+ s2)))
  /\ (forall (h : gmap loc CssSelectorBuilder.t) (left : loc) (c : string)
             (right : loc),
        is_Some (h !! left) -> is_Some (h !! right) ->
        exists h1 s1 h2 s2 h',
          invoke left CssSelectorBuilder.stringify h = Some (h1, Normal s1)
          /\ invoke right CssSelectorBuilder.stringify h1 = Some (h2, Normal s2)
          /\ CssSelectorBuilder.cssSelectorBuilder.combine left c right h
             = Some (h', Normal (fresh (dom h)))
          /\ h !! fresh (dom h) = None
          /\ h' !! fresh (dom h)
             = Some (CssSelectorBuilder.push
                       (s1 +:+ " " +:+ c +:+ " " +:+ s2) CssSelectorBuilder.new)
          /\ rendering (fresh (dom h)) h'
             = Some (Normal (s1 +:+ " " +:+ c +:+ " " +:+ s2)))
  /\ outcome (Obj := Selector.t) (eval_stringify div_main_plus_span)
     = Some (Normal "div#main + span")
  /\ outcome (Obj := CssSelectorBuilder.t) (eval_stringify div_main_plus_span)
     = Some (Normal "div#main + span")
  /\ outcome (Obj := Selector.t) (eval_stringify table_tr_td)
     = Some (Normal "table ~ tr   td")
  /\ outcome (Obj := CssSelectorBuilder.t) (eval_stringify table_tr_td)
     = Some (Normal "table ~ tr   td").
Proof.
  split; [|split; [|repeat split; vm_compute; reflexivity]].
  - intros h l c r [a Hl] [b Hr].
    destruct (SelectorStore.stringify_at l h a Hl) as (s1 & Ha & E1).
    destruct (SelectorStore.stringify_at r h b Hr) as (s2 & Hb & E2).
    exists h, s1, h, s2. eexists.
    split; [exact E1|]. split; [exact E2|].
    split; [eapply SelectorStore.facade_combine_eq; eassumption|].
    split; [apply fresh_unused|].
    split; [apply lookup_insert_eq|].
    unfold rendering. erewrite invoke_eq by apply lookup_insert_eq.
    cbn [method_stringify Selector_Builder].
    rewrite SelectorFacts.stringify_eq. cbn [fmap option_fmap option_map snd].
    do 2 f_equal. cbn. rewrite !append_nil_l. apply append_nil_r.
  - intros h l c r Hl Hr.
    destruct (CssSelectorBuilderStore.facade_combine_pushes l c r h Hl Hr)
      as (h1 & s1 & h2 & s2 & E1 & E2 & E & _).
    exists h1, s1, h2, s2. eexists.
    split; [exact E1|]. split; [exact E2|]. split; [exact E|].
    split; [apply fresh_unused|].
    split; [apply lookup_insert_eq|].
    unfold rendering. erewrite invoke_eq by apply lookup_insert_eq.
    reflexivity.
Qed.

Lemma combine_yields_one_fragment_witness :
  let h : gmap loc CssSelectorBuilder.t :=
    {[ 0 := CssSelectorBuilder.push "a" CssSelectorBuilder.new;
       1 := CssSelectorBuilder.push "b" CssSelectorBuilder.new ]} in
  is_Some (h !! 0) /\ is_Some (h !! 1)
  /\ exists h1 s1 h2 s2 h',
       invoke 0 CssSelectorBuilder.stringify h = Some (h1, Normal s1)
       /\ invoke 1 CssSelectorBuilder.stringify h1 = Some (h2, Normal s2)
       /\ CssSelectorBuilder.cssSelectorBuilder.combine 0 ">" 1 h
          = Some (h', Normal (fresh (dom h)))
       /\ h !! fresh (dom h) = None
       /\ h' !! fresh (dom h)
          = Some (CssSelectorBuilder.push
                    (s1 +:+ " " +:+ ">" +:+ " " +:+ s2) CssSelectorBuilder.new)
       /\ rendering (fresh (dom h)) h'
          = Some (Normal (s1 +:+ " " +:+ ">" +:+ " " +:+ s2)).
Proof.
  intros h.
  assert (H0 : is_Some (h !! 0)) by (eexists; vm_compute; reflexivity).
  assert (H1 : is_Some (h !! 1)) by (eexists; vm_compute; reflexivity).
  split; [exact H0|]. split; [exact H1|].
  exact (proj1 (proj2 combine_yields_one_fragment) h 0 ">" 1 H0 H1).
Defined.

(** What [combine] leaves in its receiver, in each class. *)

Module CombineReceiver.

Lemma combined_truthy (s1 c s2 : string) :
  truthy (s1 +:+ " " +:+ c +:+ " " +:+ s2) = true.
Proof. now destruct s1. Qed.

(** The part methods of [Selector] other than [element] do not read the
    element slot. *)
Lemma append_ignores_elementValue (k : call) (f : string) (o : Selector.t) :
  is_element k = false ->
  snd (Selector.append k (Selector.set_elementValue f o))
  = snd (Selector.append k o).
Proof.
  intros Hk.
  destruct k; try discriminate Hk; cbn [Selector.append];
    rewrite ?SelectorFacts.id_eq, ?SelectorFacts.class_eq,
      ?SelectorFacts.attr_eq, ?SelectorFacts.pseudoClass_eq,
      ?SelectorFacts.pseudoElement_eq, !SelectorFacts.validateOrder_eq;
    cbn; repeat match goal with
                | |- context [if ?b then _ else _] => destruct b
                end; reflexivity.
Qed.

Lemma chain_completion {Obj} (this : loc) (m : method Obj unit)
      (h : gmap loc Obj) (o : Obj) :
  h !! this = Some o ->
  snd <$> chain this m h
  = Some (match snd (m o) with
          | Normal _ => Normal this
          | Throw e => Throw e
          end).
Proof. intros Ho. now rewrite (chain_eq _ _ _ _ Ho). Qed.

End CombineReceiver.

(** C7, as stated, fails on [Selector]: on the builder returned by
    [combine(element('a'), '+', element('b'))], and likewise by
    [combine(id('a'), '+', id('b'))], on which [element] was never
    called, [element('c')] throws the duplicate error, while on a new
    builder it returns. *)
Lemma selector_combine_blocks_element :
  outcome (Obj := Selector.t)
    (eval (Then (Combine (Start (Element "a")) "+" (Start (Element "b")))
                (Element "c")))
  = Some (Throw Selector.duplicate_then)
  /\ outcome (Obj := Selector.t)
       (eval (Then (Combine (Start (Id "a")) "+" (Start (Id "b")))
                   (Element "c")))
     = Some (Throw Selector.duplicate_then)
  /\ snd (Selector.element "c" Selector.new) = Normal tt.
Proof. repeat split; vm_compute; reflexivity. Qed.

(** C7, amended.  [combine] makes no rank or duplicate check and stores
    its fragment beside what the receiver holds.  [Selector.combine], on
    any receiver and operands, returns the receiver with
    [left.stringify() + " " + c + " " + right.stringify()] in its
    element slot and [order] and every other slot as they were, so that
    the builder renders the combined string followed by its other
    fragments.  After it, whatever the combined string begins with,
    [element] throws the duplicate error, and every other part call
    completes as it would have without the [combine]: the fragment
    triggers neither the id or pseudo-element duplicate check nor the
    ordering check.  [CssSelectorBuilder.combine] returns on any
    receiver, and on a receiver that is not one of its operands it
    pushes that string after the fragments already held, so that the
    builder renders them followed by the combined string. *)
Theorem combine_stores_unchecked :
  (forall (h : gmap loc Selector.t) (this left : loc) (c : string)
          (right : loc) (o a b : Selector.t),
     h !! this = Some o -> h !! left = Some a -> h !! right = Some b ->
     let f := text a +:+ " " +:+ c +:+ " " +:+ text b in
     let h' := <[this := Selector.set_elementValue f o]> h in
     Selector.combine this left c right h = Some (h', Normal this)
     /\ rendering this h'
        = Some (Normal (f +:+ Selector.idValue o
                        +:+ join (Selector.classValues o)
                        +:+ Selector.attrValue o
                        +:+ join (Selector.pseudoClassValues o)
                        +:+ Selector.pseudoElementValue o))
     /\ (forall v, chain this (Selector.element v) h'
                   = Some (h', Throw Selector.duplicate_then))
     /\ (forall k, is_element k = false ->
                   snd <$> chain this (Selector.append k) h'
                   = snd <$> chain this (Selector.append k) h))
  /\ (forall (h : gmap loc CssSelectorBuilder.t) (this left : loc)
             (c : string) (right : loc),
        is_Some (h !! this) -> is_Some (h !! left) -> is_Some (h !! right) ->
        exists h', CssSelectorBuilder.combine this left c right h
                   = Some (h', Normal this))
  /\ (forall (h : gmap loc CssSelectorBuilder.t) (this left : loc)
             (c : string) (right : loc) (o : CssSelectorBuilder.t),
        h !! this = Some o -> this <> left -> this <> right ->
        is_Some (h !! left) -> is_Some (h !! right) ->
        exists h1 s1 h2 s2 h',
          invoke left CssSelectorBuilder.stringify h = Some (h1, Normal s1)
          /\ invoke right CssSelectorBuilder.stringify h1 = Some (h2, Normal s2)
          /\ CssSelectorBuilder.combine this left c right h
             = Some (h', Normal this)
          /\ h' !! this
             = Some (CssSelectorBuilder.push
                       (s1 +:+ " " +:+ c +:+ " " +:+ s2) o)
          /\ rendering this h'
             = Some (Normal (join (CssSelectorBuilder.selectors o)
                             +:+ s1 +:+ " " +:+ c +:+ " " +:+ s2))).
Proof.
  split; [|split].
  - intros h this l c r o a b Ho Hl Hr f h'.
    assert (Hh' : h' !! this = Some (Selector.set_elementValue f o))
      by apply lookup_insert_eq.
    split.
    { eapply SelectorStore.combine_eq; try eassumption;
        apply SelectorRendering.stringify_text. }
    split.
    { unfold rendering. erewrite invoke_eq by exact Hh'.
      cbn [method_stringify Selector_Builder].
      now rewrite SelectorFacts.stringify_eq. }
    split.
    + intros v. rewrite (chain_eq _ _ _ _ Hh').
      rewrite SelectorFacts.element_eq.
      cbn [Selector.elementValue Selector.set_elementValue].
      assert (Ht : truthy f = true) by apply CombineReceiver.combined_truthy.
      rewrite !Ht. cbn [fst snd].
      f_equal. f_equal. unfold h'. now rewrite insert_insert_eq.
    + intros k Hk.
      rewrite (CombineReceiver.chain_completion _ _ _ _ Hh'),
        (CombineReceiver.chain_completion _ _ _ _ Ho).
      now rewrite CombineReceiver.append_ignores_elementValue.
  - intros h this l c r Hthis Hl Hr.
    destruct (CssSelectorBuilderStore.combine_frame this l c r h)
      as (h' & E & _); eauto.
  - intros h this l c r o Ho Hnl Hnr Hl Hr.
    destruct (CssSelectorBuilderStore.combine_pushes this l c r h o
                Ho Hnl Hnr Hl Hr)
      as (h1 & s1 & h2 & s2 & E1 & E2 & _ & _ & E).
    exists h1, s1, h2, s2. eexists.
    split; [exact E1|]. split; [exact E2|]. split; [exact E|].
    split; [apply lookup_insert_eq|].
    unfold rendering. erewrite invoke_eq by apply lookup_insert_eq.
    cbn [method_stringify CssSelectorBuilder_Builder].
    rewrite CssSelectorBuilderFacts.stringify_clears.
    cbn [fmap option_fmap option_map snd CssSelectorBuilder.selectors
           CssSelectorBuilder.push].
    now rewrite join_snoc.
Qed.

Lemma combine_stores_unchecked_witness :
  let o := fst (Selector.class "x" Selector.new) in
  let a := fst (Selector.id "a" Selector.new) in
  let b := fst (Selector.id "b" Selector.new) in
  let h : gmap loc Selector.t := {[ 0 := o; 1 := a; 2 := b ]} in
  let h' := <[0 := Selector.set_elementValue "#a + #b" o]> h in
  h !! 0 = Some o /\ h !! 1 = Some a /\ h !! 2 = Some b
  /\ Selector.combine 0 1 "+" 2 h = Some (h', Normal 0)
  /\ rendering 0 h' = Some (Normal "#a + #b.x")
  /\ chain 0 (Selector.element "c") h'
     = Some (h', Throw Selector.duplicate_then)
  /\ (is_element (Attr "y") = false ->
      snd <$> chain 0 (Selector.append (Attr "y")) h'
      = snd <$> chain 0 (Selector.append (Attr "y")) h).
Proof.
  intros o a b h h'.
  assert (H0 : h !! 0 = Some o) by (vm_compute; reflexivity).
  assert (H1 : h !! 1 = Some a) by (vm_compute; reflexivity).
  assert (H2 : h !! 2 = Some b) by (vm_compute; reflexivity).
  split; [exact H0|]. split; [exact H1|]. split; [exact H2|].
  destruct (proj1 combine_stores_unchecked h 0 1 "+" 2 o a b H0 H1 H2)
    as (E & R & Hel & Hk).
  split; [exact E|]. split; [exact R|]. split; [exact (Hel "c")|].
  exact (Hk (Attr "y")).
Defined.

(** ** The facade *)

(** C8.  Every entry point of the facade builds on a new object, in both
    classes: a part entry point adds to the store one object at an
    unused location, holding what the part method leaves of a newly
    constructed builder; [combine] constructs a builder and calls the
    [combine] method on it, which changes no existing object besides
    rendering its two operands; and a part method called on a builder
    changes no other object.  Hence evaluating any selector expression
    written against the facade leaves every builder that existed before
    as it was, with the rendering it had, and yields a builder that did
    not exist. *)
Theorem facade_builders_are_independent :
  (forall (c : call) (h : gmap loc Selector.t),
     Selector.cssSelectorBuilder.start c h
     = Some (<[fresh (dom h) := fst (Selector.append c Selector.new)]> h,
             Normal (fresh (dom h)))
     /\ h !! fresh (dom h) = None)
  /\ (forall (c : call) (h : gmap loc CssSelectorBuilder.t),
        CssSelectorBuilder.cssSelectorBuilder.start c h
        = Some (<[fresh (dom h)
                  := fst (CssSelectorBuilder.append c CssSelectorBuilder.new)]> h,
                Normal (fresh (dom h)))
        /\ h !! fresh (dom h) = None)
  /\ (forall (left : loc) (c : string) (right : loc) (h : gmap loc Selector.t),
        Selector.cssSelectorBuilder.combine left c right h
        = (construct Selector.new
             ≫= λ this, Selector.combine this left c right) h
        /\ (is_Some (h !! left) -> is_Some (h !! right) ->
            exists h',
              Selector.cssSelectorBuilder.combine left c right h
              = Some (h', Normal (fresh (dom h)))
              /\ h !! fresh (dom h) = None
              /\ forall x, x <> fresh (dom h) -> h' !! x = h !! x))
  /\ (forall (left : loc) (c : string) (right : loc)
             (h : gmap loc CssSelectorBuilder.t),
        CssSelectorBuilder.cssSelectorBuilder.combine left c right h
        = (construct CssSelectorBuilder.new
             ≫= λ this, CssSelectorBuilder.combine this left c right) h
        /\ (is_Some (h !! left) -> is_Some (h !! right) ->
            exists h',
              CssSelectorBuilder.cssSelectorBuilder.combine left c right h
              = Some (h', Normal (fresh (dom h)))
              /\ h !! fresh (dom h) = None
              /\ forall x, x <> fresh (dom h) -> x <> left -> x <> right ->
                           h' !! x = h !! x))
  /\ (forall (this : loc) (c : call) (h h' : gmap loc Selector.t) res,
        chain this (Selector.append c) h = Some (h', res) ->
        forall x, x <> this -> h' !! x = h !! x)
  /\ (forall (this : loc) (c : call) (h h' : gmap loc CssSelectorBuilder.t) res,
        chain this (CssSelectorBuilder.append c) h = Some (h', res) ->
        forall x, x <> this -> h' !! x = h !! x)
  /\ (forall (e : expr) (h : gmap loc Selector.t),
        exists h' res,
          eval e h = Some (h', res)
          /\ (forall x o, h !! x = Some o ->
                          h' !! x = Some o /\ rendering x h' = rendering x h)
          /\ (forall this, res = Normal this ->
                           h !! this = None /\ is_Some (h' !! this)))
  /\ (forall (e : expr) (h : gmap loc CssSelectorBuilder.t),
        exists h' res,
          eval e h = Some (h', res)
          /\ (forall x o, h !! x = Some o ->
                          h' !! x = Some o /\ rendering x h' = rendering x h)
          /\ (forall this, res = Normal this ->
                           h !! this = None /\ is_Some (h' !! this))).
Proof.
  split.
  { intros c h. split; [apply SelectorStore.facade_start_eq | apply fresh_unused]. }
  split.
  { intros c h. split; [apply CssSelectorBuilderStore.facade_start_adds
                       | apply fresh_unused]. }
  split.
  { intros l c r h. split; [reflexivity|]. intros [a Hl] [b Hr].
    destruct (SelectorStore.stringify_at l h a Hl) as (s1 & Ha & _).
    destruct (SelectorStore.stringify_at r h b Hr) as (s2 & Hb & _).
    eexists. split; [eapply SelectorStore.facade_combine_eq; eassumption|].
    split; [apply fresh_unused|].
    intros x Hx. now rewrite lookup_insert_ne. }
  split.
  { intros l c r h. split; [reflexivity|]. intros Hl Hr.
    destruct (CssSelectorBuilderStore.facade_combine_pushes l c r h Hl Hr)
      as (h1 & s1 & h2 & s2 & _ & _ & E & Hf).
    eexists. split; [exact E|]. split; [apply fresh_unused|].
    intros x Hx Hxl Hxr. rewrite lookup_insert_ne by congruence.
    now apply Hf. }
  split; [intros this c h h' res; apply chain_frame|].
  split; [intros this c h h' res; apply chain_frame|].
  split; intros e h; apply eval_leaves_others.
Qed.

Lemma facade_builders_are_independent_witness :
  let o := CssSelectorBuilder.push "#main" CssSelectorBuilder.new in
  let h : gmap loc CssSelectorBuilder.t := {[ 0 := o ]} in
  h !! 0 = Some o
  /\ exists h' res,
       eval table_tr_td h = Some (h', res)
       /\ h' !! 0 = Some o
       /\ rendering 0 h' = rendering 0 h.
Proof.
  intros o h.
  assert (H0 : h !! 0 = Some o) by (vm_compute; reflexivity).
  split; [exact H0|].
  destruct (proj2 (proj2 (proj2 (proj2 (proj2 (proj2 (proj2
              facade_builders_are_independent))))))
              table_tr_td h) as (h' & res & E & Hkeep & _).
  exists h', res. split; [exact E|]. exact (Hkeep 0 o H0).
Defined.

(** * Further properties of the two classes *)

(** ** [Selector]: the ordering rule *)

Module SelectorOrdering.
Import Selector.

Lemma chained_cons_returns (c : call) (cs : list call) (s s' : t) :
  chained append (c :: cs) s = (s', Normal tt) ->
  exists s1, append c s = (s1, Normal tt)
             /\ chained append cs s1 = (s', Normal tt).
Proof.
  cbn [chained]. unfold mbind, method_mbind, method_bind.
  destruct (append c s) as [s1 [[]|e]]; [eauto | discriminate].
Qed.

Lemma chained_returns_ascending (cs : list call) (s s' : t) :
  chained append cs s = (s', Normal tt) ->
  ranks_ascend cs = true /\ forall c, In c cs -> order s <= rank c.
Proof.
  revert s. induction cs as [|c cs IH]; intros s Hcs.
  - split; [reflexivity | intros c []].
  - apply chained_cons_returns in Hcs as (s1 & E1 & Hcs).
    pose proof (SelectorFacts.append_order c s) as Ho. rewrite E1 in Ho.
    destruct Ho as [Hle Heq].
    destruct (IH s1 Hcs) as [Hasc Hall]. rewrite Heq in Hall. split.
    + destruct cs as [|d cs]; [reflexivity|]. cbn [ranks_ascend].
      apply andb_true_intro. split; [|exact Hasc].
      apply Nat.leb_le, Hall. now left.
    + intros d [<-|Hd]; [exact Hle|]. specialize (Hall d Hd). lia.
Qed.

(** After a filled slot no call of that kind is part of a returning
    chain. *)
Lemma chained_no_id_after (cs : list call) (s s' : t) :
  idValue s <> "" -> chained append cs s = (s', Normal tt) ->
  List.filter is_id cs = [].
Proof.
  revert s. induction cs as [|c cs IH]; intros s Hne Hcs; [reflexivity|].
  apply chained_cons_returns in Hcs as (s1 & E1 & Hcs).
  assert (Hne1 : idValue s1 <> "").
  { replace s1 with (fst (append c s)) by now rewrite E1.
    now rewrite SelectorFacts.append_keeps_idValue. }
  cbn [List.filter]. destruct c as [v|v|v|v|v|v]; cbn [is_id]; eauto.
  apply (SelectorFacts.id_duplicate_iff v) in Hne.
  cbn [append] in E1. rewrite E1 in Hne. discriminate Hne.
Qed.

Lemma chained_no_pseudoElement_after (cs : list call) (s s' : t) :
  pseudoElementValue s <> "" -> chained append cs s = (s', Normal tt) ->
  List.filter is_pseudoElement cs = [].
Proof.
  revert s. induction cs as [|c cs IH]; intros s Hne Hcs; [reflexivity|].
  apply chained_cons_returns in Hcs as (s1 & E1 & Hcs).
  assert (Hne1 : pseudoElementValue s1 <> "").
  { replace s1 with (fst (append c s)) by now rewrite E1.
    now rewrite SelectorFacts.append_keeps_pseudoElementValue. }
  cbn [List.filter]. destruct c as [v|v|v|v|v|v]; cbn [is_pseudoElement]; eauto.
  apply (SelectorFacts.pseudoElement_duplicate_iff v) in Hne.
  cbn [append] in E1. rewrite E1 in Hne. discriminate Hne.
Qed.

Lemma chained_no_named_element_after (cs : list call) (s s' : t) :
  elementValue s <> "" -> chained append cs s = (s', Normal tt) ->
  List.filter named_element cs = [].
Proof.
  revert s. induction cs as [|c cs IH]; intros s Hne Hcs; [reflexivity|].
  apply chained_cons_returns in Hcs as (s1 & E1 & Hcs).
  assert (Hne1 : elementValue s1 <> "").
  { replace s1 with (fst (append c s)) by now rewrite E1.
    now rewrite SelectorFacts.append_keeps_elementValue. }
  cbn [List.filter]. destruct c as [v|v|v|v|v|v]; cbn [named_element]; eauto.
  apply (SelectorFacts.element_duplicate_iff v) in Hne.
  cbn [append] in E1. rewrite E1 in Hne. discriminate Hne.
Qed.

Lemma element_returns_stores (v : string) (s s1 : t) :
  element v s = (s1, Normal tt) -> elementValue s1 = v.
Proof.
  intros E. replace s1 with (fst (element v s)) by now rewrite E.
  rewrite SelectorFacts.element_eq in *.
  destruct (truthy (elementValue s)); [discriminate E|].
  now rewrite SelectorFacts.validateOrder_elementValue.
Qed.

Lemma chained_at_most_once (cs : list call) (s s' : t) :
  chained append cs s = (s', Normal tt) ->
  length (List.filter is_id cs) <= 1
  /\ length (List.filter is_pseudoElement cs) <= 1
  /\ length (List.filter named_element cs) <= 1.
Proof.
  revert s. induction cs as [|c cs IH]; intros s Hcs; [cbn; lia|].
  apply chained_cons_returns in Hcs as (s1 & E1 & Hcs).
  destruct (IH s1 Hcs) as (Hid & Hpe & Hel).
  destruct c as [v|v|v|v|v|v];
    cbn [List.filter is_id is_pseudoElement named_element];
    try (repeat split; assumption).
  - destruct (truthy v) eqn:Ev; [|repeat split; assumption].
    repeat split; try assumption.
    erewrite chained_no_named_element_after; [cbn; lia | | exact Hcs].
    cbn [append] in E1. rewrite (element_returns_stores _ _ _ E1).
    intros ->. discriminate Ev.
  - repeat split; try assumption.
    erewrite chained_no_id_after; [cbn; lia | | exact Hcs].
    replace s1 with (fst (id v s)) by (cbn [append] in E1; now rewrite E1).
    apply SelectorFacts.id_leaves_slot_filled.
  - repeat split; try assumption.
    erewrite chained_no_pseudoElement_after; [cbn; lia | | exact Hcs].
    replace s1 with (fst (pseudoElement v s))
      by (cbn [append] in E1; now rewrite E1).
    apply SelectorFacts.pseudoElement_leaves_slot_filled.
Qed.

(** What a throwing call leaves behind. *)
Lemma append_throw_effect (c : call) (s s' : t) (e : Error) :
  append c s = (s', Throw e) ->
  order s' = order s /\ (e <> out_of_order -> s' = s).
Proof.
  intros E. split.
  - pose proof (SelectorFacts.append_order c s) as H. now rewrite E in H.
  - intros Hne. destruct c as [v|v|v|v|v|v]; cbn [append] in E;
      rewrite ?SelectorFacts.element_eq, ?SelectorFacts.id_eq,
        ?SelectorFacts.class_eq, ?SelectorFacts.attr_eq,
        ?SelectorFacts.pseudoClass_eq, ?SelectorFacts.pseudoElement_eq in E;
      repeat match type of E with
             | (if ?b then _ else _) = _ => destruct b
             end;
      try (injection E as <- _; reflexivity);
      rewrite SelectorFacts.validateOrder_eq in E;
      match type of E with
      | (if ?b then _ else _) = _ => destruct b
      end; try discriminate E; injection E as _ <-; contradiction.
Qed.

End SelectorOrdering.

(** X1.  In [Selector], [class], [attr] and [pseudoClass] return exactly
    when no part of a higher rank was accepted before: on any builder,
    such a call returns if and only if [order] is at most its rank. *)
Theorem selector_repeatable_returns_iff (c : call) (s : Selector.t) :
  repeatable c = true ->
  (snd (Selector.append c s) = Normal tt <-> Selector.order s <= rank c).
Proof.
  intros Hrep. split.
  - intros Hret. pose proof (SelectorFacts.append_order c s) as H.
    destruct (Selector.append c s) as [s' [u|e]]; [tauto | discriminate Hret].
  - intros Hle.
    destruct (SelectorFacts.append_repeatable_returns c s Hrep Hle) as [s' E].
    now rewrite E.
Qed.

Lemma selector_repeatable_returns_iff_witness :
  repeatable (Attr "x") = true
  /\ (snd (Selector.append (Attr "x")
             (fst (Selector.class "a" Selector.new))) = Normal tt
      <-> Selector.order (fst (Selector.class "a" Selector.new)) <= rank (Attr "x")).
Proof.
  split; [reflexivity|].
  exact (selector_repeatable_returns_iff (Attr "x")
           (fst (Selector.class "a" Selector.new)) eq_refl).
Defined.

(** X2.  In [Selector], a call whose rank is below [order] throws and
    leaves [order] as it was; and after any sequence of part calls, each
    returning or throwing, on any builder, [order] is the highest of its
    initial value and the ranks of the calls that returned. *)
Theorem selector_order_is_highest_returned_rank :
  (forall (c : call) (s : Selector.t),
     rank c < Selector.order s ->
     exists s' e, Selector.append c s = (s', Throw e)
                  /\ Selector.order s' = Selector.order s)
  /\ (forall (cs : list call) (s : Selector.t),
        Selector.order (performed Selector.append cs s)
        = Nat.max (Selector.order s)
                  (max_rank (returned Selector.append cs s))).
Proof.
  split.
  - intros c s Hlt.
    destruct (SelectorFacts.append_lower_rank_throws c s Hlt) as (s' & e & E).
    exists s', e. split; [exact E|].
    now destruct (SelectorOrdering.append_throw_effect c s s' e E).
  - apply SelectorFacts.performed_order.
Qed.

Lemma selector_order_is_highest_returned_rank_witness :
  let s := fst (Selector.attr "x" Selector.new) in
  rank (Id "a") < Selector.order s
  /\ exists s' e, Selector.append (Id "a") s = (s', Throw e)
                  /\ Selector.order s' = Selector.order s.
Proof.
  intros s.
  assert (H : rank (Id "a") < Selector.order s) by (vm_compute; lia).
  split; [exact H|].
  exact (proj1 selector_order_is_highest_returned_rank (Id "a") s H).
Defined.

(** X3.  In [Selector], a second [id] or [pseudoElement], and a second
    [element] after one with a non-empty name, throws the duplicate
    error at any later position: whatever the builder held before the
    first call, whether that call returned or threw, and whatever part
    calls were made in between. *)
Theorem selector_duplicate_rejected_anywhere :
  (forall (s : Selector.t) (v w : string) (cs : list call),
     snd (Selector.id w (performed Selector.append cs (fst (Selector.id v s))))
     = Throw Selector.duplicate_then)
  /\ (forall (s : Selector.t) (v w : string) (cs : list call),
        snd (Selector.pseudoElement w
               (performed Selector.append cs (fst (Selector.pseudoElement v s))))
        = Throw Selector.duplicate_once)
  /\ (forall (s : Selector.t) (v w : string) (cs : list call),
        v <> "" ->
        snd (Selector.element w
               (performed Selector.append cs (fst (Selector.element v s))))
        = Throw Selector.duplicate_then).
Proof.
  split; [|split].
  - intros s v w cs. apply SelectorFacts.id_duplicate_anywhere,
      SelectorFacts.id_leaves_slot_filled.
  - intros s v w cs. apply SelectorFacts.pseudoElement_duplicate_anywhere,
      SelectorFacts.pseudoElement_leaves_slot_filled.
  - intros s v w cs Hv. apply SelectorFacts.element_duplicate_anywhere.
    rewrite SelectorFacts.element_eq.
    destruct (truthy (Selector.elementValue s)) eqn:E; cbn [fst].
    + intros H. apply truthy_empty in H. congruence.
    + now rewrite SelectorFacts.validateOrder_elementValue.
Qed.

Lemma selector_duplicate_rejected_anywhere_witness :
  "div"%string <> ""
  /\ snd (Selector.element "p"
            (performed Selector.append [Class "a"; Attr "x"]
               (fst (Selector.element "div" Selector.new))))
     = Throw Selector.duplicate_then.
Proof.
  assert (H : "div"%string <> "") by discriminate.
  split; [exact H|].
  exact (proj2 (proj2 selector_duplicate_rejected_anywhere)
           Selector.new "div" "p" [Class "a"; Attr "x"] H).
Defined.

(** X4.  [Selector] accepts and renders every sequence the ordering rule
    admits in which [attr] occurs at most once: on a new builder all the
    calls return, and [stringify()] is the concatenation of the rendered
    fragments in the order of the calls. *)
Theorem selector_renders_well_ordered (cs : list call) :
  well_ordered cs = true -> at_most_once is_attr cs = true ->
  exists s,
    chained Selector.append cs Selector.new = (s, Normal tt)
    /\ Selector.stringify s = (s, Normal (join (map render cs))).
Proof. apply SelectorRendering.well_ordered_rendered. Qed.

Lemma selector_renders_well_ordered_witness :
  let cs := [Element "div"; Id "main"; Class "a"; Class "b"; Attr "x";
             PseudoClass "hover"; PseudoClass "focus"; PseudoElement "before"] in
  well_ordered cs = true /\ at_most_once is_attr cs = true
  /\ exists s,
       chained Selector.append cs Selector.new = (s, Normal tt)
       /\ Selector.stringify s = (s, Normal (join (map render cs))).
Proof.
  intros cs. split; [reflexivity|]. split; [reflexivity|].
  exact (selector_renders_well_ordered cs eq_refl eq_refl).
Defined.

(** X5.  [Selector] accepts nothing else: if a chain of part calls, on
    any builder, returns at every call, then the ranks of the calls
    never decrease, and the chain holds at most one [id], at most one
    [pseudoElement] and at most one [element] with a non-empty name. *)
Theorem selector_accepts_only_ordered (cs : list call) (s s' : Selector.t) :
  chained Selector.append cs s = (s', Normal tt) ->
  ranks_ascend cs = true
  /\ at_most_once is_id cs = true
  /\ at_most_once is_pseudoElement cs = true
  /\ at_most_once named_element cs = true.
Proof.
  intros Hcs.
  destruct (SelectorOrdering.chained_returns_ascending cs s s' Hcs) as [Hasc _].
  destruct (SelectorOrdering.chained_at_most_once cs s s' Hcs) as (Hid & Hpe & Hel).
  unfold at_most_once. repeat split; try assumption; now apply Nat.leb_le.
Qed.

Lemma selector_accepts_only_ordered_witness :
  let cs := [Element ""; Element "a"; Class "b"; Class "c"; Attr "x"; Attr "y"] in
  let s' := fst (chained Selector.append cs Selector.new) in
  chained Selector.append cs Selector.new = (s', Normal tt)
  /\ ranks_ascend cs = true
  /\ at_most_once is_id cs = true
  /\ at_most_once is_pseudoElement cs = true
  /\ at_most_once named_element cs = true.
Proof.
  intros cs s'.
  assert (H : chained Selector.append cs Selector.new = (s', Normal tt))
    by (vm_compute; reflexivity).
  split; [exact H|].
  exact (selector_accepts_only_ordered cs Selector.new s' H).
Defined.

(** X6.  In [Selector], a call that throws never changes [order], and a
    call that throws the duplicate error changes nothing at all: only
    the ordering error is thrown after the fragment was stored. *)
Theorem selector_throw_effect (c : call) (s s' : Selector.t) (e : Error) :
  Selector.append c s = (s', Throw e) ->
  Selector.order s' = Selector.order s
  /\ (e <> Selector.out_of_order -> s' = s).
Proof. apply SelectorOrdering.append_throw_effect. Qed.

Lemma selector_throw_effect_witness :
  let s := fst (Selector.element "a" Selector.new) in
  Selector.append (Element "b") s = (s, Throw Selector.duplicate_then)
  /\ Selector.order s = Selector.order s
  /\ (Selector.duplicate_then <> Selector.out_of_order -> s = s).
Proof.
  intros s.
  assert (H : Selector.append (Element "b") s = (s, Throw Selector.duplicate_then))
    by (vm_compute; reflexivity).
  split; [exact H|].
  exact (selector_throw_effect (Element "b") s s Selector.duplicate_then H).
Defined.

(** ** [CssSelectorBuilder]: what its check accepts *)

Module CssSelectorBuilderOrdering.
Import CssSelectorBuilder.

Lemma chained_cons_returns_css (c : call) (cs : list call) (s s' : t) :
  chained append (c :: cs) s = (s', Normal tt) ->
  exists s1, append c s = (s1, Normal tt)
             /\ chained append cs s1 = (s', Normal tt).
Proof.
  cbn [chained]. unfold mbind, method_mbind, method_bind.
  destruct (append c s) as [s1 [[]|e]]; [eauto | discriminate].
Qed.

(** What a returning call tells of the builder it was made on. *)
Lemma append_returns_checked (c : call) (s s' : t) :
  append c s = (s', Normal tt) ->
  too_many (selectors s) = false
  /\ misplaced (selectors s) (rank c) = false
  /\ selectors s' = selectors s ++ [render c].
Proof.
  intros E. split; [|split].
  - rewrite CssSelectorBuilderFacts.append_cases,
      CssSelectorBuilderFacts.validateOrder_cases in E.
    destruct (too_many (selectors s)); [discriminate E | reflexivity].
  - rewrite CssSelectorBuilderFacts.append_cases,
      CssSelectorBuilderFacts.validateOrder_cases in E.
    destruct (too_many (selectors s)); [discriminate E|].
    destruct (misplaced (selectors s) (rank c)); [discriminate E | reflexivity].
  - now apply CssSelectorBuilderFacts.append_return_pushes.
Qed.

(** Every fragment is counted once. *)
Lemma fold_classify_total (l : list string) (acc : counts) :
  let n := fold_left classify l acc in
  nElement n + nId n + nPseudoElement n
  = nElement acc + nId acc + nPseudoElement acc + length l.
Proof.
  revert acc. induction l as [|f l IH]; intros acc; cbn [fold_left length].
  - cbv zeta. lia.
  - cbv zeta in *. rewrite IH. unfold classify.
    destruct (startsWith f "#"); [cbn; lia|].
    destruct (startsWith f "::"); cbn; lia.
Qed.

Lemma too_many_of_four (l : list string) :
  4 <= length l -> too_many l = true.
Proof.
  intros Hlen. unfold too_many, count_selectors.
  pose proof (fold_classify_total l (mkCounts 0 0 0)) as H.
  cbv zeta in *. cbn [nElement nId nPseudoElement] in H.
  destruct (fold_left classify l (mkCounts 0 0 0)) as [ne ni np].
  cbn [nElement nId nPseudoElement] in *.
  destruct (Nat.ltb_spec 1 ne); [reflexivity|].
  destruct (Nat.ltb_spec 1 ni); [reflexivity|].
  destruct (Nat.ltb_spec 1 np); [reflexivity|]. lia.
Qed.

Lemma startsWith_truthy (f p : string) :
  p <> "" -> startsWith f p = true -> truthy f = true.
Proof.
  unfold startsWith. destruct f as [|a f]; [|reflexivity].
  destruct p; [congruence | discriminate].
Qed.

Lemma startsWith_prefixed (p s : string) : startsWith (p +:+ s) p = true.
Proof.
  unfold startsWith. induction p as [|a p IH]; [apply prefix_nil|].
  rewrite append_cons, prefix_cons.
  destruct (Ascii.ascii_dec a a); [exact IH | congruence].
Qed.

(** After a fragment beginning with ["#"] only [id] is let through, and
    its fragment begins with ["#"] again; likewise for ["::"] and
    [pseudoElement]. *)
Lemma after_hash (l : list string) (f : string) (c : call) :
  misplaced (l ++ [f]) (rank c) = false -> startsWith f "#" = true ->
  startsWith (render c) "#" = true.
Proof.
  unfold misplaced. rewrite last_snoc. cbn [last_startsWith].
  intros Hm Hf. rewrite Hf, (startsWith_truthy f "#") in Hm
    by (assumption || discriminate).
  cbn [andb] in Hm. apply orb_false_elim in Hm as [Hm _].
  destruct c; try discriminate Hm. apply startsWith_prefixed.
Qed.

Lemma after_colons (l : list string) (f : string) (c : call) :
  misplaced (l ++ [f]) (rank c) = false -> startsWith f "::" = true ->
  startsWith (render c) "#" = false /\ startsWith (render c) "::" = true.
Proof.
  unfold misplaced. rewrite last_snoc. cbn [last_startsWith].
  intros Hm Hf. rewrite Hf, (startsWith_truthy f "::") in Hm
    by (assumption || discriminate).
  cbn [andb] in Hm. apply orb_false_elim in Hm as [_ Hm].
  destruct c; try discriminate Hm.
  split; [reflexivity | apply startsWith_prefixed].
Qed.

Lemma too_many_three (f1 f2 f3 : string) :
  too_many [f1; f2; f3] = false ->
  (startsWith f1 "#" = true -> startsWith f2 "#" = false)
  /\ (startsWith f2 "#" = true -> startsWith f3 "#" = false)
  /\ (startsWith f1 "#" = false -> startsWith f1 "::" = true ->
      startsWith f2 "#" = false -> startsWith f2 "::" = false)
  /\ (startsWith f2 "#" = false -> startsWith f2 "::" = true ->
      startsWith f3 "#" = false -> startsWith f3 "::" = false)
  /\ (startsWith f1 "#" = false -> startsWith f1 "::" = false ->
      startsWith f2 "#" = false -> startsWith f2 "::" = false -> False).
Proof.
  unfold too_many, count_selectors. cbn [fold_left]. unfold classify.
  destruct (startsWith f1 "#"), (startsWith f1 "::"),
    (startsWith f2 "#"), (startsWith f2 "::"),
    (startsWith f3 "#"), (startsWith f3 "::");
    cbn; intros H; try discriminate H; repeat split; congruence.
Qed.

Lemma no_chain_of_four (c1 c2 c3 c4 : call) (cs : list call) (s : t) :
  chained append (c1 :: c2 :: c3 :: c4 :: cs) new <> (s, Normal tt).
Proof.
  intros H.
  apply chained_cons_returns_css in H as (s1 & E1 & H).
  apply chained_cons_returns_css in H as (s2 & E2 & H).
  apply chained_cons_returns_css in H as (s3 & E3 & H).
  apply chained_cons_returns_css in H as (s4 & E4 & _).
  apply append_returns_checked in E1 as (_ & _ & L1).
  apply append_returns_checked in E2 as (_ & M2 & L2).
  apply append_returns_checked in E3 as (_ & M3 & L3).
  apply append_returns_checked in E4 as (T4 & _ & _).
  cbn [selectors new app] in L1. rewrite L1 in M2, L2.
  rewrite L2 in M3, L3. rewrite L3 in T4. cbn [app] in T4.
  change [render c1] with ([] ++ [render c1]) in M2.
  change [render c1; render c2] with ([render c1] ++ [render c2]) in M3.
  pose proof (after_hash _ _ _ M2) as A2.
  pose proof (after_colons _ _ _ M2) as B2.
  pose proof (after_hash _ _ _ M3) as A3.
  pose proof (after_colons _ _ _ M3) as B3.
  destruct (too_many_three _ _ _ T4) as (D1 & D2 & D3 & D4 & D5).
  destruct (startsWith (render c1) "#") eqn:H1.
  { specialize (A2 eq_refl). specialize (D1 eq_refl). congruence. }
  destruct (startsWith (render c1) "::") eqn:G1.
  { destruct (B2 eq_refl) as [B2a B2b].
    specialize (D3 eq_refl eq_refl B2a). congruence. }
  destruct (startsWith (render c2) "#") eqn:H2.
  { specialize (A3 eq_refl). specialize (D2 eq_refl). congruence. }
  destruct (startsWith (render c2) "::") eqn:G2.
  { destruct (B3 eq_refl) as [B3a B3b].
    specialize (D4 eq_refl eq_refl B3a). congruence. }
  exact (D5 eq_refl eq_refl eq_refl eq_refl).
Qed.

End CssSelectorBuilderOrdering.

(** X7.  A part call of [CssSelectorBuilder] checks before it stores:
    when it throws, the builder is exactly as it was, and when it
    returns, the array has grown by the rendered fragment of the call,
    at its end, and by nothing else. *)
Theorem css_builder_checks_before_storing
        (c : call) (s s' : CssSelectorBuilder.t) :
  (forall e, CssSelectorBuilder.append c s = (s', Throw e) -> s' = s)
  /\ (CssSelectorBuilder.append c s = (s', Normal tt) ->
      CssSelectorBuilder.selectors s'
      = CssSelectorBuilder.selectors s ++ [render c]).
Proof.
  split.
  - intros e. apply CssSelectorBuilderFacts.append_throw_unchanged.
  - apply CssSelectorBuilderFacts.append_return_pushes.
Qed.

Lemma css_builder_checks_before_storing_witness :
  let s := fst (CssSelectorBuilder.id "a" CssSelectorBuilder.new) in
  let s' := fst (CssSelectorBuilder.append (Id "b") s) in
  CssSelectorBuilder.append (Class "c") s
  = (s, Throw CssSelectorBuilder.out_of_order)
  /\ s = s
  /\ CssSelectorBuilder.append (Id "b") s = (s', Normal tt)
  /\ CssSelectorBuilder.selectors s'
     = CssSelectorBuilder.selectors s ++ [render (Id "b")].
Proof.
  intros s s'.
  assert (H1 : CssSelectorBuilder.append (Class "c") s
               = (s, Throw CssSelectorBuilder.out_of_order))
    by (vm_compute; reflexivity).
  assert (H2 : CssSelectorBuilder.append (Id "b") s = (s', Normal tt))
    by (vm_compute; reflexivity).
  split; [exact H1|]. split.
  - exact (proj1 (css_builder_checks_before_storing (Class "c") s s) _ H1).
  - split; [exact H2|].
    exact (proj2 (css_builder_checks_before_storing (Id "b") s s') H2).
Defined.

(** X8.  A [CssSelectorBuilder] that holds four fragments or more,
    however they got there, rejects every part call with the duplicate
    error: each fragment counts as an element, an id or a
    pseudo-element, and no count may exceed one. *)
Theorem css_builder_rejects_after_four (c : call) (s : CssSelectorBuilder.t) :
  4 <= length (CssSelectorBuilder.selectors s) ->
  CssSelectorBuilder.append c s = (s, Throw CssSelectorBuilder.duplicate).
Proof.
  intros Hlen. rewrite CssSelectorBuilderFacts.append_cases,
    CssSelectorBuilderFacts.validateOrder_cases.
  now rewrite CssSelectorBuilderOrdering.too_many_of_four.
Qed.

Lemma css_builder_rejects_after_four_witness :
  let s := CssSelectorBuilder.set_selectors ["a + b"; "#x"; "::y"; ".z"]
             CssSelectorBuilder.new in
  4 <= length (CssSelectorBuilder.selectors s)
  /\ CssSelectorBuilder.append (PseudoElement "w") s
     = (s, Throw CssSelectorBuilder.duplicate).
Proof.
  intros s.
  assert (H : 4 <= length (CssSelectorBuilder.selectors s))
    by (vm_compute; lia).
  split; [exact H|].
  exact (css_builder_rejects_after_four (PseudoElement "w") s H).
Defined.

(** X9.  No chain of more than three part calls on a new
    [CssSelectorBuilder] returns: a fragment beginning with ["#"] or
    ["::"] only lets through the call that stores another such
    fragment, so three stored fragments are never counted once each. *)
Theorem css_builder_chain_at_most_three
        (cs : list call) (s : CssSelectorBuilder.t) :
  chained CssSelectorBuilder.append cs CssSelectorBuilder.new = (s, Normal tt) ->
  length cs <= 3.
Proof.
  intros H.
  destruct cs as [|c1 [|c2 [|c3 [|c4 cs]]]]; cbn [length]; try lia.
  now apply CssSelectorBuilderOrdering.no_chain_of_four in H.
Qed.

Lemma css_builder_chain_at_most_three_witness :
  let cs := [Class "a"; Id "b"; Id "c"] in
  let s := fst (chained CssSelectorBuilder.append cs CssSelectorBuilder.new) in
  chained CssSelectorBuilder.append cs CssSelectorBuilder.new = (s, Normal tt)
  /\ length cs <= 3.
Proof.
  intros cs s.
  assert (H : chained CssSelectorBuilder.append cs CssSelectorBuilder.new
              = (s, Normal tt)) by (vm_compute; reflexivity).
  split; [exact H|].
  exact (css_builder_chain_at_most_three cs s H).
Defined.

(** X10.  [CssSelectorBuilder.stringify()] makes the builder usable
    again: after it, on any builder, every part call returns, and the
    next [stringify()] returns the fragment of that call alone. *)
Theorem css_builder_reusable_after_stringify
        (c : call) (s : CssSelectorBuilder.t) :
  exists s',
    CssSelectorBuilder.append c (fst (CssSelectorBuilder.stringify s))
    = (s', Normal tt)
    /\ snd (CssSelectorBuilder.stringify s') = Normal (render c).
Proof.
  rewrite CssSelectorBuilderFacts.stringify_clears. cbn [fst].
  rewrite CssSelectorBuilderFacts.append_cases,
    CssSelectorBuilderFacts.validateOrder_cases.
  cbn [CssSelectorBuilder.selectors CssSelectorBuilder.set_selectors].
  change (CssSelectorBuilder.too_many []) with false.
  change (CssSelectorBuilder.misplaced [] (rank c)) with false.
  cbv iota. eexists. split; [reflexivity|].
  rewrite CssSelectorBuilderFacts.stringify_clears. cbn [snd]. f_equal.
  now destruct c.
Qed.

(** X11.  The fields [elementCount], [idCount] and [pseudoElementCount]
    of a [CssSelectorBuilder] influence nothing: two builders holding
    the same fragments complete every part call alike, hold the same
    fragments after it, and render alike. *)
Theorem css_builder_counters_unused
        (c : call) (s1 s2 : CssSelectorBuilder.t) :
  CssSelectorBuilder.selectors s1 = CssSelectorBuilder.selectors s2 ->
  snd (CssSelectorBuilder.append c s1) = snd (CssSelectorBuilder.append c s2)
  /\ CssSelectorBuilder.selectors (fst (CssSelectorBuilder.append c s1))
     = CssSelectorBuilder.selectors (fst (CssSelectorBuilder.append c s2))
  /\ snd (CssSelectorBuilder.stringify s1)
     = snd (CssSelectorBuilder.stringify s2).
Proof.
  intros Heq.
  rewrite !CssSelectorBuilderFacts.append_cases,
    !CssSelectorBuilderFacts.validateOrder_cases,
    !CssSelectorBuilderFacts.stringify_clears, Heq.
  destruct (CssSelectorBuilder.too_many _); [now repeat split|].
  destruct (CssSelectorBuilder.misplaced _ _); [now repeat split|].
  cbn [fst snd]. repeat split.
  destruct c; cbn; now rewrite Heq.
Qed.

Lemma css_builder_counters_unused_witness :
  let s1 := CssSelectorBuilder.new in
  let s2 := fst (CssSelectorBuilder.stringify
                   (fst (CssSelectorBuilder.element "a" CssSelectorBuilder.new))) in
  CssSelectorBuilder.selectors s1 = CssSelectorBuilder.selectors s2
  /\ s1 <> s2
  /\ snd (CssSelectorBuilder.append (Id "x") s1)
     = snd (CssSelectorBuilder.append (Id "x") s2).
Proof.
  intros s1 s2.
  assert (H : CssSelectorBuilder.selectors s1 = CssSelectorBuilder.selectors s2)
    by reflexivity.
  split; [exact H|]. split; [discriminate|].
  exact (proj1 (css_builder_counters_unused (Id "x") s1 s2 H)).
Defined.

(** ** Operands of [combine] *)

Module CombineOperands.

Lemma rendering_css (x : loc) (h : gmap loc CssSelectorBuilder.t)
      (o : CssSelectorBuilder.t) :
  h !! x = Some o ->
  rendering x h = Some (Normal (join (CssSelectorBuilder.selectors o))).
Proof.
  intros Hx. unfold rendering. now erewrite invoke_eq by exact Hx.
Qed.

Lemma rendering_selector (x : loc) (h : gmap loc Selector.t) (o : Selector.t) :
  h !! x = Some o -> rendering x h = Some (Normal (text o)).
Proof.
  intros Hx. unfold rendering. erewrite invoke_eq by exact Hx.
  cbn [method_stringify Selector_Builder].
  now rewrite SelectorFacts.stringify_eq.
Qed.

(** The store the facade's [combine] of [CssSelectorBuilder] leaves. *)
Lemma facade_combine_store (l : loc) (k : string) (r : loc)
      (h : gmap loc CssSelectorBuilder.t) (a : CssSelectorBuilder.t) :
  h !! l = Some a -> is_Some (h !! r) ->
  exists b,
    <[l := CssSelectorBuilder.set_selectors [] a]> h !! r = Some b
    /\ CssSelectorBuilder.cssSelectorBuilder.combine l k r h
       = Some (<[fresh (dom h)
                 := CssSelectorBuilder.push
                      (join (CssSelectorBuilder.selectors a) +:+ " " +:+ k
                       +:+ " " +:+ join (CssSelectorBuilder.selectors b))
                      CssSelectorBuilder.new]>
                 (<[r := CssSelectorBuilder.set_selectors [] b]>
                    (<[l := CssSelectorBuilder.set_selectors [] a]> h)),
               Normal (fresh (dom h))).
Proof.
  intros Hl Hr.
  destruct (CssSelectorBuilderStore.facade_combine_pushes l k r h)
    as (h1 & s1 & h2 & s2 & E1 & E2 & E & _); [eauto | exact Hr |].
  rewrite (CssSelectorBuilderStore.stringify_at_clears l h a Hl) in E1.
  injection E1 as <- <-.
  assert (is_Some (<[l := CssSelectorBuilder.set_selectors [] a]> h !! r))
    as [b Hb].
  { destruct (decide (l = r)) as [->|Hne].
    - rewrite lookup_insert_eq. eauto.
    - now rewrite lookup_insert_ne. }
  rewrite (CssSelectorBuilderStore.stringify_at_clears r _ b Hb) in E2.
  injection E2 as <- <-.
  exists b. split; [exact Hb | exact E].
Qed.

End CombineOperands.

(** X12.  The facade's [combine] of [CssSelectorBuilder] uses up its
    operands: after it, both the left and the right builder render as
    the empty string. *)
Theorem css_builder_combine_empties_operands
        (h : gmap loc CssSelectorBuilder.t) (left : loc) (c : string)
        (right : loc) :
  is_Some (h !! left) -> is_Some (h !! right) ->
  exists h',
    CssSelectorBuilder.cssSelectorBuilder.combine left c right h
    = Some (h', Normal (fresh (dom h)))
    /\ rendering left h' = Some (Normal "")
    /\ rendering right h' = Some (Normal "").
Proof.
  intros [a Hl] Hr.
  pose proof (fresh_unused h) as Hf.
  assert (Hnl : fresh (dom h) <> left) by congruence.
  assert (Hnr : fresh (dom h) <> right) by (destruct Hr; congruence).
  destruct (CombineOperands.facade_combine_store left c right h a Hl Hr)
    as (b & Hb & E).
  eexists. split; [exact E|]. split.
  - destruct (decide (left = right)) as [->|Hne].
    + rewrite (CombineOperands.rendering_css _ _
                 (CssSelectorBuilder.set_selectors [] b)); [reflexivity|].
      rewrite lookup_insert_ne by exact Hnr. apply lookup_insert_eq.
    + rewrite (CombineOperands.rendering_css _ _
                 (CssSelectorBuilder.set_selectors [] a)); [reflexivity|].
      rewrite lookup_insert_ne by exact Hnl.
      rewrite lookup_insert_ne by congruence. apply lookup_insert_eq.
  - rewrite (CombineOperands.rendering_css _ _
               (CssSelectorBuilder.set_selectors [] b)); [reflexivity|].
    rewrite lookup_insert_ne by exact Hnr. apply lookup_insert_eq.
Qed.

Lemma css_builder_combine_empties_operands_witness :
  let h : gmap loc CssSelectorBuilder.t :=
    {[ 0 := CssSelectorBuilder.push "a" CssSelectorBuilder.new;
       1 := CssSelectorBuilder.push "b" CssSelectorBuilder.new ]} in
  is_Some (h !! 0) /\ is_Some (h !! 1)
  /\ rendering 0 h = Some (Normal "a")
  /\ exists h',
       CssSelectorBuilder.cssSelectorBuilder.combine 0 ">" 1 h
       = Some (h', Normal (fresh (dom h)))
       /\ rendering 0 h' = Some (Normal "")
       /\ rendering 1 h' = Some (Normal "").
Proof.
  intros h.
  assert (H0 : is_Some (h !! 0)) by (eexists; vm_compute; reflexivity).
  assert (H1 : is_Some (h !! 1)) by (eexists; vm_compute; reflexivity).
  split; [exact H0|]. split; [exact H1|].
  split; [vm_compute; reflexivity|].
  exact (css_builder_combine_empties_operands h 0 ">" 1 H0 H1).
Defined.

(** X13.  Combining a builder with itself through the facade: in
    [Selector] the result renders the builder's text on both sides of
    the combinator, in [CssSelectorBuilder] only on the left, the right
    side being empty because the first [stringify()] emptied the
    builder. *)
Theorem combine_with_itself :
  (forall (h : gmap loc Selector.t) (a : loc) (c : string) (o : Selector.t),
     h !! a = Some o ->
     exists h',
       Selector.cssSelectorBuilder.combine a c a h
       = Some (h', Normal (fresh (dom h)))
       /\ rendering (fresh (dom h)) h'
          = Some (Normal (text o +:+ " " +:+ c +:+ " " +:+ text o)))
  /\ (forall (h : gmap loc CssSelectorBuilder.t) (a : loc) (c : string)
             (o : CssSelectorBuilder.t),
        h !! a = Some o ->
        exists h',
          CssSelectorBuilder.cssSelectorBuilder.combine a c a h
          = Some (h', Normal (fresh (dom h)))
          /\ rendering (fresh (dom h)) h'
             = Some (Normal (join (CssSelectorBuilder.selectors o)
                             +:+ " " +:+ c +:+ " "))).
Proof.
  split.
  - intros h a c o Ha. eexists. split.
    + eapply SelectorStore.facade_combine_eq; try exact Ha;
        apply SelectorFacts.stringify_eq.
    + erewrite CombineOperands.rendering_selector by apply lookup_insert_eq.
      do 2 f_equal. unfold text. cbn. rewrite !append_nil_l.
      apply append_nil_r.
  - intros h a c o Ha.
    destruct (CombineOperands.facade_combine_store a c a h o Ha) as (b & Hb & E);
      [eauto|].
    rewrite lookup_insert_eq in Hb. injection Hb as <-.
    eexists. split; [exact E|].
    erewrite CombineOperands.rendering_css by apply lookup_insert_eq.
    reflexivity.
Qed.

Lemma combine_with_itself_witness :
  let o := CssSelectorBuilder.push "#x" (CssSelectorBuilder.push "a" CssSelectorBuilder.new) in
  let h : gmap loc CssSelectorBuilder.t := {[ 0 := o ]} in
  h !! 0 = Some o
  /\ exists h',
       CssSelectorBuilder.cssSelectorBuilder.combine 0 "~" 0 h
       = Some (h', Normal (fresh (dom h)))
       /\ rendering (fresh (dom h)) h'
          = Some (Normal (join (CssSelectorBuilder.selectors o)
                          +:+ " " +:+ "~" +:+ " ")).
Proof.
  intros o h.
  assert (H0 : h !! 0 = Some o) by (vm_compute; reflexivity).
  split; [exact H0|].
  exact (proj2 combine_with_itself h 0 "~" o H0).
Defined.

(** ** Expressions denote builders, whatever the store *)

Section Denotation.
Context {Obj : Type} `{CombinationLaws Obj}.
Implicit Types (h : gmap loc Obj) (e : expr).

Lemma eval_denote e h :
  exists h',
    h ⊆ h'
    /\ match denote e with
       | inl o => exists r, eval e h = Some (h', Normal r)
                            /\ h !! r = None /\ h' !! r = Some o
       | inr err => eval e h = Some (h', Throw err)
       end.
Proof.
  revert h. induction e as [c | e0 IH0 c | e1 IH1 k e2 IH2
                           | e0 IH0 e1 IH1 k e2 IH2]; intros h;
    cbn [eval denote].
  - pose proof (fresh_unused h) as Hf.
    exists (<[fresh (dom h) := fst (method_append c initial)]> h).
    split; [now apply insert_subseteq|].
    exists (fresh (dom h)). split; [apply start_initial|].
    split; [exact Hf | apply lookup_insert_eq].
  - destruct (IH0 h) as (h1 & Hsub & Hd).
    destruct (denote e0) as [o|err].
    + destruct Hd as (r & E & Hnone & Ho).
      erewrite bind_normal by exact E. erewrite chain_eq by exact Ho.
      exists (<[r := fst (method_append c o)]> h1).
      split; [now apply insert_subseteq_r|].
      destruct (method_append c o) as [o' [u|er]]; cbn [fst snd].
      * exists r. split; [reflexivity|].
        split; [exact Hnone | apply lookup_insert_eq].
      * reflexivity.
    + exists h1. split; [exact Hsub|]. now erewrite bind_throw by exact Hd.
  - destruct (IH1 h) as (h1 & Hsub1 & Hd1).
    destruct (denote e1) as [a|err];
      [|exists h1; split; [exact Hsub1|]; now erewrite bind_throw by exact Hd1].
    destruct Hd1 as (l & E1 & Hl & Ha).
    erewrite bind_normal by exact E1.
    destruct (IH2 h1) as (h2 & Hsub2 & Hd2).
    assert (Hsub : h ⊆ h2) by now transitivity h1.
    destruct (denote e2) as [b|err];
      [|exists h2; split; [exact Hsub|]; now erewrite bind_throw by exact Hd2].
    destruct Hd2 as (r & E2 & Hr & Hb).
    erewrite bind_normal by exact E2.
    assert (Ha2 : h2 !! l = Some a) by (eapply lookup_weaken; eassumption).
    destruct (facade_combine_combined l k r h2 a b) as (h3 & E3 & Hnew & Hf);
      [congruence | exact Ha2 | exact Hb |].
    pose proof (fresh_unused h2) as Hfresh.
    exists h3. split.
    + apply map_subseteq_spec. intros x o Hx.
      assert (Hx1 : h1 !! x = Some o) by (eapply lookup_weaken; eassumption).
      assert (Hx2 : h2 !! x = Some o) by (eapply lookup_weaken; eassumption).
      rewrite Hf; [exact Hx2 | congruence..].
    + exists (fresh (dom h2)). split; [exact E3|].
      split; [eapply unused_below; eassumption | exact Hnew].
  - destruct (IH0 h) as (h0 & Hsub0 & Hd0).
    destruct (denote e0) as [o|err];
      [|exists h0; split; [exact Hsub0|]; now erewrite bind_throw by exact Hd0].
    destruct Hd0 as (this & E0 & Hthis & Ho).
    erewrite bind_normal by exact E0.
    destruct (IH1 h0) as (h1 & Hsub1 & Hd1).
    assert (Hsub01 : h ⊆ h1) by now transitivity h0.
    destruct (denote e1) as [a|err];
      [|exists h1; split; [exact Hsub01|]; now erewrite bind_throw by exact Hd1].
    destruct Hd1 as (l & E1 & Hl & Ha).
    erewrite bind_normal by exact E1.
    destruct (IH2 h1) as (h2 & Hsub2 & Hd2).
    assert (Hsub02 : h ⊆ h2) by now transitivity h1.
    destruct (denote e2) as [b|err];
      [|exists h2; split; [exact Hsub02|]; now erewrite bind_throw by exact Hd2].
    destruct Hd2 as (r & E2 & Hr & Hb).
    erewrite bind_normal by exact E2.
    assert (Ho1 : h1 !! this = Some o) by (eapply lookup_weaken; eassumption).
    assert (Ho2 : h2 !! this = Some o) by (eapply lookup_weaken; eassumption).
    assert (Ha2 : h2 !! l = Some a) by (eapply lookup_weaken; eassumption).
    destruct (method_combine_combined this l k r h2 o a b)
      as (h3 & E3 & Hnew & Hf);
      [congruence | congruence | congruence | exact Ho2 | exact Ha2 | exact Hb |].
    exists h3. split.
    + apply map_subseteq_spec. intros x ox Hx.
      assert (Hx0 : h0 !! x = Some ox) by (eapply lookup_weaken; eassumption).
      assert (Hx1 : h1 !! x = Some ox) by (eapply lookup_weaken; eassumption).
      assert (Hx2 : h2 !! x = Some ox) by (eapply lookup_weaken; eassumption).
      rewrite Hf; [exact Hx2 | congruence..].
    + exists this. split; [exact E3|]. split; [exact Hthis | exact Hnew].
Qed.

Lemma eval_stringify_denoted e h :
  snd <$> eval_stringify e h = Some (denoted_stringify e).
Proof.
  unfold eval_stringify, denoted_stringify.
  destruct (eval_denote e h) as (h' & _ & Hd).
  destruct (denote e) as [o|err].
  - destruct Hd as (r & E & _ & Ho).
    erewrite bind_normal by exact E. now erewrite invoke_eq by exact Ho.
  - now erewrite bind_throw by exact Hd.
Qed.

Lemma denoted_stringify_Combine e1 k e2 :
  denoted_stringify (Combine e1 k e2)
  = match denoted_stringify e1 with
    | Normal s1 =>
        match denoted_stringify e2 with
        | Normal s2 => Normal (s1 +:+ " " +:+ k +:+ " " +:+ s2)
        | Throw err => Throw err
        end
    | Throw err => Throw err
    end.
Proof.
  unfold denoted_stringify. cbn [denote].
  destruct (denote e1) as [a|err]; [|reflexivity].
  destruct (stringify_returns a) as [s1 Hs1]. rewrite Hs1.
  destruct (denote e2) as [b|err]; [|reflexivity].
  destruct (stringify_returns b) as [s2 Hs2]. rewrite Hs2.
  now apply combined_stringify.
Qed.

Lemma outcome_store_independent e h :
  snd <$> eval_stringify e h = outcome (eval_stringify e).
Proof. unfold outcome. now rewrite !eval_stringify_denoted. Qed.

Lemma outcome_Combine e1 k e2 :
  outcome (eval_stringify (Combine e1 k e2))
  = match outcome (eval_stringify e1), outcome (eval_stringify e2) with
    | Some (Normal s1), Some (Normal s2) =>
        Some (Normal (s1 +:+ " " +:+ k +:+ " " +:+ s2))
    | Some (Normal _), Some (Throw err) => Some (Throw err)
    | Some (Throw err), _ => Some (Throw err)
    | _, _ => None
    end.
Proof.
  unfold outcome. rewrite !eval_stringify_denoted, denoted_stringify_Combine.
  destruct (denoted_stringify e1); [|reflexivity].
  now destruct (denoted_stringify e2).
Qed.

End Denotation.

Module CombinationInstances.

#[global] Instance selector_combination_laws : CombinationLaws Selector.t.
Proof.
  split.
  - intros c h. apply SelectorStore.facade_start_eq.
  - intros l k r h a b _ Hl Hr. eexists. split.
    + eapply SelectorStore.facade_combine_eq; try eassumption;
        apply SelectorRendering.stringify_text.
    + split; [apply lookup_insert_eq|].
      intros x Hx _ _. now rewrite lookup_insert_ne.
  - intros this l k r h o a b _ _ _ Ho Hl Hr. eexists. split.
    + eapply SelectorStore.combine_eq; try eassumption;
        apply SelectorRendering.stringify_text.
    + split; [apply lookup_insert_eq|].
      intros x Hx _ _. now rewrite lookup_insert_ne.
  - intros o. eexists. cbn [method_stringify Selector_Builder].
    now rewrite SelectorRendering.stringify_text.
  - intros a b k s1 s2. cbn [method_stringify Selector_Builder].
    rewrite !SelectorRendering.stringify_text. cbn [snd].
    intros [= <-] [= <-]. f_equal. unfold text at 1. cbn.
    rewrite !append_nil_l. apply append_nil_r.
Qed.

#[global] Instance css_builder_combination_laws
  : CombinationLaws CssSelectorBuilder.t.
Proof.
  split.
  - intros c h. apply CssSelectorBuilderStore.facade_start_adds.
  - intros l k r h a b Hne Hl Hr.
    destruct (CombineOperands.facade_combine_store l k r h a Hl) as (b' & Hb & E);
      [eauto|].
    rewrite lookup_insert_ne in Hb by exact Hne.
    assert (b' = b) as -> by congruence.
    eexists. split; [exact E|]. split; [apply lookup_insert_eq|].
    intros x Hx Hxl Hxr. now rewrite !lookup_insert_ne by congruence.
  - intros this l k r h o a b Hnl Hnr Hne Ho Hl Hr.
    destruct (CssSelectorBuilderStore.combine_pushes this l k r h o)
      as (h1 & s1 & h2 & s2 & E1 & E2 & Ho2 & Hf & E); eauto.
    rewrite (CssSelectorBuilderStore.stringify_at_clears l h a Hl) in E1.
    injection E1 as <- <-.
    assert (Hb : <[l := CssSelectorBuilder.set_selectors [] a]> h !! r = Some b)
      by now rewrite lookup_insert_ne.
    rewrite (CssSelectorBuilderStore.stringify_at_clears r _ b Hb) in E2.
    injection E2 as <- <-.
    eexists. split; [exact E|]. split; [apply lookup_insert_eq|].
    intros x Hx Hxl Hxr. now rewrite !lookup_insert_ne by congruence.
  - intros o. eexists. reflexivity.
  - intros a b k s1 s2. intros [= <-] [= <-]. reflexivity.
Qed.

End CombinationInstances.

(** X14.  The result of a selector expression does not depend on the
    builders that exist: for every expression written against the facade
    and every store, [e.stringify()] completes in that store as it does
    in the empty one, in both classes. *)
Theorem expression_result_ignores_store :
  (forall (e : expr) (h : gmap loc Selector.t),
     snd <$> eval_stringify e h
     = outcome (Obj := Selector.t) (eval_stringify e))
  /\ (forall (e : expr) (h : gmap loc CssSelectorBuilder.t),
        snd <$> eval_stringify e h
        = outcome (Obj := CssSelectorBuilder.t) (eval_stringify e)).
Proof. split; intros e h; exact (outcome_store_independent e h). Qed.

(** X15.  Combinations compose, in both classes: for all expressions
    [e1], [e2] and every combinator, [combine(e1, c, e2).stringify()]
    throws what [e1] throws, else what [e2] throws, and otherwise returns
    the result of [e1.stringify()], a space, the combinator, a space and
    the result of [e2.stringify()]. *)
Theorem combine_composes_renderings :
  (forall (e1 : expr) (c : string) (e2 : expr),
     outcome (Obj := Selector.t) (eval_stringify (Combine e1 c e2))
     = match outcome (Obj := Selector.t) (eval_stringify e1),
             outcome (Obj := Selector.t) (eval_stringify e2) with
       | Some (Normal s1), Some (Normal s2) =>
           Some (Normal (s1 +:+ " " +:+ c +:+ " " +:+ s2))
       | Some (Normal _), Some (Throw err) => Some (Throw err)
       | Some (Throw err), _ => Some (Throw err)
       | _, _ => None
       end)
  /\ (forall (e1 : expr) (c : string) (e2 : expr),
        outcome (Obj := CssSelectorBuilder.t) (eval_stringify (Combine e1 c e2))
        = match outcome (Obj := CssSelectorBuilder.t) (eval_stringify e1),
                outcome (Obj := CssSelectorBuilder.t) (eval_stringify e2) with
          | Some (Normal s1), Some (Normal s2) =>
              Some (Normal (s1 +:+ " " +:+ c +:+ " " +:+ s2))
          | Some (Normal _), Some (Throw err) => Some (Throw err)
          | Some (Throw err), _ => Some (Throw err)
          | _, _ => None
          end).
Proof. split; intros e1 c e2; exact (outcome_Combine e1 c e2). Qed.
